(** * A Huffman coder: tree construction, code generation, encoding, decoding

    A shallow embedding of [main.cpp].  The program counts the characters of
    a text, builds a Huffman tree with a [std::priority_queue], derives a
    code per character with [generateCodes], concatenates the codes of the
    characters of the text and decodes the result again by walking the tree.

    Conventions of the embedding:
    - [std::string] is a list of characters ([str]); the codes and the encoded
      text are strings over the characters "0" and "1", as in the program;
    - [shared_ptr<HuffmanNode>] is [option HuffmanNode]: [None] is [nullptr];
    - [int] frequencies are integers of [Z]; lemma [freq_bounded] shows that
      every frequency stored in a tree lies between 1 and the length of the
      text, so the additions of the program stay in range for every text
      whose length fits an [int];
    - dereferencing a null pointer is the failure [None] of the operation
      that does it;
    - the two containers of the standard library whose behaviour the language
      leaves open are interfaces: the order in which an [unordered_map] is
      iterated ([MapIteration]) and the way a [priority_queue] breaks ties
      ([PriorityQueue]).  Every general theorem holds for all
      implementations of both. *)

From stdpp Require Import gmap strings list fin_maps.
From Stdlib Require Import ZArith Ascii Permutation.

#[local] Set Warnings "-clear-no-such-hyp".

Open Scope Z_scope.

(** ** Strings *)

Abbreviation str := (list ascii).

Definition bit0 : ascii := "0"%char.
Definition bit1 : ascii := "1"%char.

(** ** The tree: [struct HuffmanNode] *)

Unset Elimination Schemes.
Inductive HuffmanNode : Type :=
  mkNode (data : ascii) (freq : Z) (left right : option HuffmanNode).
Set Elimination Schemes.

Definition data (n : HuffmanNode) : ascii :=
  match n with mkNode d _ _ _ => d end.
Definition freq (n : HuffmanNode) : Z :=
  match n with mkNode _ f _ _ => f end.
Definition left (n : HuffmanNode) : option HuffmanNode :=
  match n with mkNode _ _ l _ => l end.
Definition right (n : HuffmanNode) : option HuffmanNode :=
  match n with mkNode _ _ _ r => r end.

(** [HuffmanNode(char data, int freq)] *)
Definition leaf_node (d : ascii) (f : Z) : HuffmanNode :=
  mkNode d f None None.

(** [HuffmanNode(shared_ptr<HuffmanNode> l, shared_ptr<HuffmanNode> r)];
    the program only calls it with pointers it has just taken from the
    queue, which are never null. *)
Definition internal_node (l r : HuffmanNode) : HuffmanNode :=
  mkNode Ascii.zero (freq l + freq r) (Some l) (Some r).

(** [bool isLeaf() const { return !left && !right; }] *)
Definition isLeaf (n : HuffmanNode) : bool :=
  match left n, right n with
  | None, None => true
  | _, _ => false
  end.

(** [struct Compare]: [a->freq > b->freq]. *)
Definition Compare (a b : HuffmanNode) : bool := freq b <? freq a.

(** ** The interfaces of the two standard containers *)

(** [std::priority_queue<T, vector<T>, comp>].  [contents] is the protected
    vector [c] of the adaptor; the laws are what the standard fixes: [push]
    adds an element, [top] is an element that [comp] orders below no other
    and [pop] removes it.  On an empty queue [top] has no value. *)
Class PriorityQueue (A : Type) (comp : A → A → bool) := {
  pq : Type;
  pq_empty : pq;
  pq_push : A → pq → pq;
  pq_top : pq → option A;
  pq_pop : pq → pq;
  pq_size : pq → nat;
  contents : pq → list A;
  contents_empty : contents pq_empty = [];
  contents_push x q : contents (pq_push x q) ≡ₚ x :: contents q;
  pq_size_contents q : pq_size q = length (contents q);
  pq_top_empty q : contents q = [] → pq_top q = None;
  pq_top_pop q :
    contents q ≠ [] →
    ∃ x, pq_top q = Some x
         ∧ contents q ≡ₚ x :: contents (pq_pop q)
         ∧ Forall (λ y, comp x y = false) (contents q);
}.

(** The order in which [for (auto pair : freqMap)] visits the entries of an
    [unordered_map]: some enumeration of the entries.  The order of a library
    depends on how the map was filled and not only on its entries, so an
    instance stands for the order of the map of one run.  A theorem about one
    run that holds for every instance covers every such order; a statement
    about two runs takes an instance for each of them. *)
Class MapIteration := {
  iteration : gmap ascii Z → list (ascii * Z);
  iteration_perm m : iteration m ≡ₚ map_to_list m;
}.

(** ** The program *)

Section Program.
Context `{Q : !PriorityQueue HuffmanNode Compare} `{I : !MapIteration}.

(** [for (char c : text) freqMap[c]++;] *)
Definition count_char (freqMap : gmap ascii Z) (c : ascii) : gmap ascii Z :=
  <[c := default 0 (freqMap !! c) + 1]> freqMap.

Definition count_frequencies (text : str) : gmap ascii Z :=
  foldl count_char ∅ text.

(** [for (auto pair : freqMap) pq.push(make_shared<HuffmanNode>(...));] *)
Definition push_leaf (q : pq) (pair : ascii * Z) : pq :=
  pq_push (leaf_node pair.1 pair.2) q.

Definition initial_queue (freqMap : gmap ascii Z) : pq :=
  foldl push_leaf pq_empty (iteration freqMap).

(** The body of [while (pq.size() > 1)]. *)
Definition merge_step (q : pq) : option pq :=
  l ← pq_top q;
  let q1 := pq_pop q in
  r ← pq_top q1;
  let q2 := pq_pop q1 in
  Some (pq_push (internal_node l r) q2).

(** The loop; [fuel] bounds the number of iterations. *)
Fixpoint build_loop (fuel : nat) (q : pq) : option pq :=
  if decide (1 < pq_size q)%nat then
    match fuel with
    | O => None
    | S fuel' => q' ← merge_step q; build_loop fuel' q'
    end
  else Some q.

(** [root = pq.top()] after the loop. *)
Definition build_tree (freqMap : gmap ascii Z) : option HuffmanNode :=
  let q := initial_queue freqMap in
  q' ← build_loop (pq_size q) q;
  pq_top q'.

(** The loop as a step relation on the queue. *)
Inductive loop_step : pq → pq → Prop :=
| loop_step_merge q l r :
    (1 < pq_size q)%nat →
    pq_top q = Some l →
    pq_top (pq_pop q) = Some r →
    loop_step q (pq_push (internal_node l r) (pq_pop (pq_pop q))).

Inductive loop_run : pq → HuffmanNode → Prop :=
| loop_run_exit q root :
    ¬ (1 < pq_size q)%nat → pq_top q = Some root → loop_run q root
| loop_run_iter q q' root :
    loop_step q q' → loop_run q' root → loop_run q root.

(** [generateCodes]; the node is behind a pointer that may be null. *)
Fixpoint generateCodes_at (n : HuffmanNode) (code : str)
    (huffmanCodes : gmap ascii str) : gmap ascii str :=
  match n with
  | mkNode d _ l r =>
      if isLeaf n then
        match code with
        | [] => <[d := [bit0]]> huffmanCodes
        | _ => <[d := code]> huffmanCodes
        end
      else
        let after_left :=
          match l with
          | Some ln => generateCodes_at ln (code ++ [bit0]) huffmanCodes
          | None => huffmanCodes
          end in
        match r with
        | Some rn => generateCodes_at rn (code ++ [bit1]) after_left
        | None => after_left
        end
  end.

Definition generateCodes (node : option HuffmanNode) (code : str)
    (huffmanCodes : gmap ascii str) : gmap ascii str :=
  match node with
  | None => huffmanCodes
  | Some n => generateCodes_at n code huffmanCodes
  end.

(** [huffmanCodes[c]]: a missing key reads as the empty string. *)
Definition code_of (huffmanCodes : gmap ascii str) (c : ascii) : str :=
  default [] (huffmanCodes !! c).

(** [for (char c : text) encodedText += huffmanCodes[c];] *)
Definition encode (huffmanCodes : gmap ascii str) (text : str) : str :=
  foldl (λ encodedText c, encodedText ++ code_of huffmanCodes c) [] text.

(** One iteration of the decoding loop on the state
    [(currentNode, decodedText)].  The child just stepped to may be null;
    [currentNode->isLeaf()] then dereferences a null pointer. *)
Definition decode_step (root : HuffmanNode) (st : HuffmanNode * str)
    (bit : ascii) : option (HuffmanNode * str) :=
  let '(currentNode, decodedText) := st in
  let next := if Ascii.eqb bit bit0 then left currentNode
              else right currentNode in
  match next with
  | None => None
  | Some n =>
      if isLeaf n then Some (root, decodedText ++ [data n])
      else Some (n, decodedText)
  end.

Definition decode_from (root : HuffmanNode) (st : HuffmanNode * str)
    (encodedText : str) : option (HuffmanNode * str) :=
  foldl (λ s bit, s ≫= λ st', decode_step root st' bit) (Some st)
        encodedText.

Definition decode (root : HuffmanNode) (encodedText : str) : option str :=
  snd <$> decode_from root (root, []) encodedText.

(** The variables of [main] as functions of the text. *)
Definition freqMap_of (text : str) := count_frequencies text.
Definition root_of (text : str) : option HuffmanNode :=
  build_tree (freqMap_of text).
Definition huffmanCodes_of (text : str) : gmap ascii str :=
  generateCodes (root_of text) [] ∅.
Definition encodedText_of (text : str) : str :=
  encode (huffmanCodes_of text) text.
Definition decodedText_of (text : str) : option str :=
  root ← root_of text; decode root (encodedText_of text).

(** What a run of [main] on a text ends with. *)
Inductive outcome := NothingToDo | Success | Failure | NullDereference.

Definition main (text : str) : outcome :=
  match text with
  | [] => NothingToDo
  | _ =>
      match decodedText_of text with
      | None => NullDereference
      | Some decodedText =>
          if decide (text = decodedText) then Success else Failure
      end
  end.
End Program.

(** ** A queue to run the program with

    The vector is kept in insertion order; [top] is found by a scan that
    keeps the first element no later one beats, and [pop] removes it. *)

Section SelectionQueue.
Context {A : Type} (comp : A → A → bool).

Fixpoint select_top (best : A) (l : list A) : A * list A :=
  match l with
  | [] => (best, [])
  | y :: l' =>
      if comp best y then
        let '(x, rest) := select_top y l' in (x, best :: rest)
      else
        let '(x, rest) := select_top best l' in (x, y :: rest)
  end.

Definition sq_top (q : list A) : option A :=
  match q with
  | [] => None
  | x :: l => Some (select_top x l).1
  end.

Definition sq_pop (q : list A) : list A :=
  match q with
  | [] => []
  | x :: l => (select_top x l).2
  end.

Definition sq_push (x : A) (q : list A) : list A := q ++ [x].
End SelectionQueue.

#[global, refine] Instance selection_queue :
  PriorityQueue HuffmanNode Compare := {|
  pq := list HuffmanNode;
  pq_empty := [];
  pq_push := sq_push;
  pq_top := sq_top Compare;
  pq_pop := sq_pop Compare;
  pq_size := length;
  contents := id;
|}.
Proof.
  - done.
  - intros x q. change (q ++ [x] ≡ₚ x :: q).
    symmetry. apply Permutation_cons_append.
  - done.
  - intros q Hq. change (q = []) in Hq. by subst.
  - intros [|b l] Hne; [by destruct Hne|].
    exists (select_top Compare b l).1.
    split; [done|].
    change (b :: l ≡ₚ (select_top Compare b l).1 :: (select_top Compare b l).2
            ∧ Forall (λ y, Compare (select_top Compare b l).1 y = false)
                (b :: l)).
    split.
    + clear. revert b. induction l as [|y l IH]; intros b; simpl; [done|].
      destruct (Compare b y).
      * specialize (IH y).
        destruct (select_top Compare y l) as [x rest]; simpl in *.
        rewrite IH. apply perm_swap.
      * specialize (IH b).
        destruct (select_top Compare b l) as [x rest]; simpl in *.
        rewrite (perm_swap y b l), IH. apply perm_swap.
    + assert (∀ l b, freq (select_top Compare b l).1 ≤ freq b
                     ∧ Forall (λ y, freq (select_top Compare b l).1 ≤ freq y) l)
        as Hmin.
      { clear. induction l as [|y l IH]; intros b; simpl; [split; [lia|done]|].
        destruct (Compare b y) eqn:Hc; unfold Compare in Hc.
        - apply Z.ltb_lt in Hc. destruct (IH y) as [H1 H2].
          destruct (select_top Compare y l) as [x rest]; simpl in *.
          split; [lia|]. by constructor.
        - apply Z.ltb_ge in Hc. destruct (IH b) as [H1 H2].
          destruct (select_top Compare b l) as [x rest]; simpl in *.
          split; [lia|]. constructor; [lia|done]. }
      destruct (Hmin l b) as [H1 H2]. constructor.
      * unfold Compare at 1. by apply Z.ltb_ge.
      * eapply Forall_impl; [exact H2|]. intros y Hy.
        unfold Compare at 1. by apply Z.ltb_ge.
Defined.

(** The entries in the order of the map of the library. *)
#[global] Instance trie_order : MapIteration := {|
  iteration := map_to_list;
  iteration_perm := λ _, reflexivity _;
|}.

(** A text written as a string literal. *)
Definition text_of (x : string) : str := String.list_ascii_of_string x.

(** ** A map that remembers how it was filled

    A chained hash table that links every new key in front of the older ones
    is iterated newest key first; libstdc++'s [unordered_map] does so as long
    as no two keys share a bucket.  [newest_first text] is the map that
    [for (char c : text) freqMap[c]++;] fills, in that order: a character
    that has an entry has it incremented in place, a new character is put in
    front. *)
Definition newest_first_insert (entries : list (ascii * Z)) (c : ascii)
    : list (ascii * Z) :=
  if decide (c ∈ entries.*1)
  then (λ pair, if decide (pair.1 = c) then (pair.1, pair.2 + 1) else pair)
         <$> entries
  else (c, 1) :: entries.

Definition newest_first (text : str) : list (ascii * Z) :=
  foldl newest_first_insert [] text.

(** The order of the run on [text]: the map that the counting loop fills
    from [text] is iterated newest key first. *)
Definition newest_first_order (text : str) : MapIteration.
Proof.
  refine {|
    iteration m :=
      if decide (m = count_frequencies text) then newest_first text
      else map_to_list m;
  |}.
  intros m. case_decide as Hm; [subst m|done].
  assert (∀ entries (m : gmap ascii Z),
            NoDup entries.*1 →
            (∀ x f, (x, f) ∈ entries ↔ m !! x = Some f) →
            foldl newest_first_insert entries text
            ≡ₚ map_to_list (foldl count_char m text)) as Hfill.
  { induction text as [|c text IH]; intros entries m Hnd Hm; simpl.
    - apply list.NoDup_Permutation;
        [by eapply NoDup_fmap_1|apply NoDup_map_to_list|].
      intros [x f]. rewrite elem_of_map_to_list. apply Hm.
    - assert (∀ x, x ∈ entries.*1 ↔ is_Some (m !! x)) as Hkeys.
      { intros x. rewrite list_elem_of_fmap. split.
        - intros ([x' f] & -> & Hx). exists f. by apply Hm.
        - intros [f Hf]. exists (x, f). split; [done|]. by apply Hm. }
      apply IH; unfold newest_first_insert, count_char.
      + case_decide as Hc.
        * rewrite <- list_fmap_compose.
          erewrite list_fmap_ext; [exact Hnd|].
          intros i [x f] _. simpl. by case_decide.
        * rewrite fmap_cons. by constructor.
      + intros x f. rewrite lookup_insert. case_decide as Hc.
        * apply Hkeys in Hc as [v Hv]. rewrite Hv. simpl.
          rewrite list_elem_of_fmap. split.
          -- intros ([x' f'] & Heq & Hx). apply Hm in Hx.
             simpl in Heq. case_decide; simplify_eq; by case_decide.
          -- case_decide as Hx; [subst x|].
             ++ intros [= <-]. exists (c, v).
                simpl. rewrite decide_True by done.
                split; [done|]. by apply Hm.
             ++ intros Hf. exists (x, f).
                simpl. rewrite decide_False by done.
                split; [done|]. by apply Hm.
        * assert (m !! c = None) as Hv.
          { apply eq_None_not_Some. by rewrite <- Hkeys. }
          rewrite Hv, elem_of_cons. simpl. rewrite Hm.
          case_decide as Hx; [subst x|naive_solver].
          rewrite Hv. naive_solver. }
  apply Hfill; [constructor|].
  intros x f. rewrite lookup_empty. split; [|done].
  intros H. by apply elem_of_nil in H.
Defined.

(** ** Shapes of trees *)

(** A full tree: a node has no child, or two children whose frequencies add
    up to its own. *)
Inductive full : HuffmanNode → Prop :=
| full_leaf d f : full (mkNode d f None None)
| full_node d l r :
    full l → full r → full (mkNode d (freq l + freq r) (Some l) (Some r)).

(** The child a bit selects, as the decoding loop reads it. *)
Definition child (bit : ascii) (n : HuffmanNode) : option HuffmanNode :=
  if Ascii.eqb bit bit0 then left n else right n.

(** The node a string of bits leads to. *)
Fixpoint walk (n : HuffmanNode) (path : str) {struct path} :
    option HuffmanNode :=
  match path with
  | [] => Some n
  | bit :: path' => child bit n ≫= λ n', walk n' path'
  end.

(** The characters and frequencies at the leaves, left to right. *)
Fixpoint leaves (n : HuffmanNode) : list (ascii * Z) :=
  match n with
  | mkNode d f None None => [(d, f)]
  | mkNode _ _ l r =>
      match l with Some ln => leaves ln | None => [] end
      ++ match r with Some rn => leaves rn | None => [] end
  end.

(** The nodes that are not leaves. *)
Fixpoint internals (n : HuffmanNode) : list HuffmanNode :=
  match n with
  | mkNode _ _ None None => []
  | mkNode _ _ l r =>
      n :: match l with Some ln => internals ln | None => [] end
        ++ match r with Some rn => internals rn | None => [] end
  end.

(** The frequencies of the children of a node. *)
Definition kids (n : HuffmanNode) : list Z :=
  match left n with Some l => [freq l] | None => [] end
  ++ match right n with Some r => [freq r] | None => [] end.

(** The pairs that [generateCodes] stores, in the order it stores them. *)
Fixpoint code_list (n : HuffmanNode) (code : str) : list (ascii * str) :=
  match n with
  | mkNode d _ None None =>
      [(d, match code with [] => [bit0] | _ => code end)]
  | mkNode _ _ l r =>
      match l with Some ln => code_list ln (code ++ [bit0]) | None => [] end
      ++ match r with Some rn => code_list rn (code ++ [bit1]) | None => [] end
  end.

Definition store (m : gmap ascii str) (p : ascii * str) : gmap ascii str :=
  <[p.1 := p.2]> m.

(** The forest a frequency map starts the queue with. *)
Definition leaf_of (pair : ascii * Z) : HuffmanNode :=
  leaf_node pair.1 pair.2.

(** A property of forests that every iteration of the loop keeps: it does
    not depend on the order of the forest, and it survives the merge of the
    two lightest trees. *)
Record merge_invariant (P : list HuffmanNode → Prop) : Prop := {
  inv_perm F F' : F ≡ₚ F' → P F → P F';
  inv_merge l r rest :
    P (l :: r :: rest) →
    Forall (λ y, freq l ≤ freq y) (r :: rest) →
    Forall (λ y, freq r ≤ freq y) rest →
    P (internal_node l r :: rest);
}.

(** ** The order in which nodes are merged

    Two nodes that are not leaves stand in the order of their creation: the
    children of the one created first weigh no more than the children of
    the other. *)

Definition ordered (n1 n2 : HuffmanNode) : Prop :=
  (∀ a b, a ∈ kids n1 → b ∈ kids n2 → a ≤ b)
  ∨ (∀ a b, a ∈ kids n1 → b ∈ kids n2 → b ≤ a).

(** No child anywhere in the forest weighs more than a root. *)
Definition below_roots (F : list HuffmanNode) : Prop :=
  ∀ n a t, n ∈ F ≫= internals → a ∈ kids n → t ∈ F → a ≤ freq t.

Definition merge_order (F : list HuffmanNode) : Prop :=
  Forall (λ t, 0 ≤ freq t) F
  ∧ below_roots F
  ∧ ForallOrdPairs ordered (F ≫= internals).

(** All leaves carry a frequency of at least one. *)
Definition positive (n : HuffmanNode) : Prop :=
  Forall (λ x, 1 ≤ x.2) (leaves n).

(** The sum of the frequencies of a list of entries. *)
Definition total (L : list (ascii * Z)) : Z :=
  foldr (λ x acc, x.2 + acc) 0 L.

(** A character whose stored code leads from the root to its leaf. *)
Definition decodable (root : HuffmanNode) (codes : gmap ascii str)
    (c : ascii) : Prop :=
  ∃ lf, walk root (code_of codes c) = Some lf ∧ isLeaf lf = true
        ∧ data lf = c ∧ code_of codes c ≠ [].

(** The nodes of a tree. *)
Inductive node_of : HuffmanNode → HuffmanNode → Prop :=
| node_of_self t : node_of t t
| node_of_left t l n : left t = Some l → node_of l n → node_of t n
| node_of_right t r n : right t = Some r → node_of r n → node_of t n.

(** The number of times a character occurs in a text. *)
Definition occurrences (c : ascii) (text : str) : Z :=
  Z.of_nat (length (filter (λ x, x = c) text)).

(** The number of bits a table spends on the entries of a frequency map:
    for every entry, its frequency times the length of its code. *)
Definition weighted_length (codes : gmap ascii str)
    (L : list (ascii * Z)) : Z :=
  foldr (λ x acc, x.2 * Z.of_nat (length (code_of codes x.1)) + acc) 0 L.

(** What the merge loop does at every node it creates. *)
Definition merged_in_order (t : HuffmanNode) : Prop :=
  ∀ n l r, node_of t n → left n = Some l → right n = Some r →
           freq l ≤ freq r ∧ data n = Ascii.zero.

(** ** The cost of a tree

    The number of bits that the codes of a tree spend on a text is the sum,
    over the leaves, of the frequency times the length of the code: the
    depth of the leaf, and one bit for a leaf that is the root. *)

Fixpoint code_cost (n : HuffmanNode) (depth : nat) : Z :=
  match n with
  | mkNode _ f None None => f * Z.of_nat (Nat.max 1 depth)
  | mkNode _ _ l r =>
      match l with Some ln => code_cost ln (S depth) | None => 0 end
      + match r with Some rn => code_cost rn (S depth) | None => 0 end
  end.

(** The frequencies and depths of the leaves. *)
Fixpoint leaf_depths (n : HuffmanNode) (depth : nat) : list (Z * nat) :=
  match n with
  | mkNode _ f None None => [(f, depth)]
  | mkNode _ _ l r =>
      match l with Some ln => leaf_depths ln (S depth) | None => [] end
      ++ match r with Some rn => leaf_depths rn (S depth) | None => [] end
  end.

(** The sum of the frequencies of a list of nodes, and of the nodes of a
    tree, or of a forest, that are not leaves. *)
Definition sum_freq (L : list HuffmanNode) : Z :=
  foldr (λ k acc, freq k + acc) 0 L.

Definition inner_weight (n : HuffmanNode) : Z := sum_freq (internals n).

Definition forest_inner (F : list HuffmanNode) : Z :=
  sum_freq (F ≫= internals).

(** An assignment of depths to weights, its cost, and the sum that Kraft's
    inequality bounds, scaled by [2 ^ H] for a bound [H] on the depths. *)
Definition assignment_cost (A : list (Z * nat)) : Z :=
  foldr (λ x acc, x.1 * Z.of_nat x.2 + acc) 0 A.

Definition kraft_sum (H : nat) (ds : list nat) : Z :=
  foldr (λ d acc, 2 ^ Z.of_nat (H - d) + acc) 0 ds.

(** A balanced tree over the entries [x :: L]: the list is cut in halves
    until one entry is left, at most [d] times. *)
Fixpoint balance (d : nat) (x : ascii * Z) (L : list (ascii * Z)) :
    HuffmanNode :=
  match d, L with
  | O, _ | _, [] => leaf_of x
  | S d', _ :: _ =>
      let j := (length L / 2)%nat in
      match drop j L with
      | [] => leaf_of x
      | z :: R => internal_node (balance d' x (take j L)) (balance d' z R)
      end
  end.

(** ** Two statements of the specification that the program does not meet

    The specification describes a payload padded with zero bits to a
    multiple of eight, and a decoder that rejects a payload cut short.  They
    are written down here as the specification words them, to be compared
    with the program. *)

Definition spec_pad_count (payload_bit_length : nat) : nat :=
  ((8 - payload_bit_length mod 8) mod 8)%nat.

Definition spec_padded_payload (codes : gmap ascii str) (text : str) : str :=
  let payload := text ≫= code_of codes in
  payload ++ replicate (spec_pad_count (length payload)) bit0.

Definition spec_truncation_rejected
    `{Q : !PriorityQueue HuffmanNode Compare} `{I : !MapIteration}
    (text : str) : Prop :=
  ∀ root, root_of text = Some root →
          decode root (removelast (encodedText_of text)) = None.

(** ** A statement of the specification about two runs

    The specification lets the frequency mapping alone fix the length of the
    code of every symbol.  A run is given by its queue, by the order in which
    its map is iterated and by its text; the statement is written down here
    for two runs, as the specification words it. *)
Definition spec_same_code_lengths
    (Q1 Q2 : PriorityQueue HuffmanNode Compare) (I1 I2 : MapIteration)
    (text1 text2 : str) : Prop :=
  count_frequencies text1 = count_frequencies text2 →
  ∀ c, length (code_of (huffmanCodes_of (Q := Q1) (I := I1) text1) c)
       = length (code_of (huffmanCodes_of (Q := Q2) (I := I2) text2) c).

(** ** The queue and the loop *)

Section Loop.
Context `{Q : !PriorityQueue HuffmanNode Compare} `{I : !MapIteration}.

Lemma initial_contents (m : gmap ascii Z) :
  contents (initial_queue m) ≡ₚ leaf_of <$> map_to_list m.
Proof.
  unfold initial_queue. rewrite <- (iteration_perm m).
  assert (∀ l q, contents (foldl push_leaf q l)
                 ≡ₚ (leaf_of <$> l) ++ contents q) as H.
  { induction l as [|p l IH]; intros q; simpl; [done|].
    rewrite IH. unfold push_leaf. rewrite contents_push.
    by rewrite Permutation_middle. }
  rewrite H, contents_empty. by rewrite app_nil_r.
Qed.

(** What one iteration does to the contents of the queue. *)
Lemma merge_step_spec (q : pq) :
  (1 < pq_size q)%nat →
  ∃ l r,
    pq_top q = Some l ∧ pq_top (pq_pop q) = Some r
    ∧ merge_step q = Some (pq_push (internal_node l r) (pq_pop (pq_pop q)))
    ∧ contents q ≡ₚ l :: r :: contents (pq_pop (pq_pop q))
    ∧ Forall (λ y, freq l ≤ freq y) (r :: contents (pq_pop (pq_pop q)))
    ∧ Forall (λ y, freq r ≤ freq y) (contents (pq_pop (pq_pop q))).
Proof.
  intros Hsz. rewrite pq_size_contents in Hsz.
  assert (contents q ≠ []) as Hne by (destruct (contents q); simpl in *; [lia|done]).
  destruct (pq_top_pop q Hne) as (l & Hl & Hp & Hmin).
  assert (contents (pq_pop q) ≠ []) as Hne1.
  { intros He. rewrite Hp, He in Hsz. simpl in Hsz. lia. }
  destruct (pq_top_pop _ Hne1) as (r & Hr & Hp1 & Hmin1).
  exists l, r. split; [done|]. split; [done|]. split.
  { unfold merge_step. rewrite Hl. simpl. rewrite Hr. done. }
  split; [by rewrite Hp, Hp1|].
  rewrite Hp in Hmin. apply Forall_cons in Hmin as [_ Hmin].
  rewrite Hp1 in Hmin, Hmin1. apply Forall_cons in Hmin1 as [_ Hmin1].
  split.
  - eapply Forall_impl; [exact Hmin|]. intros y Hy. simpl in Hy.
    unfold Compare in Hy. by apply Z.ltb_ge in Hy.
  - eapply Forall_impl; [exact Hmin1|]. intros y Hy. simpl in Hy.
    unfold Compare in Hy. by apply Z.ltb_ge in Hy.
Qed.

Lemma merge_step_size (q q' : pq) :
  (1 < pq_size q)%nat → merge_step q = Some q' →
  S (pq_size q') = pq_size q.
Proof.
  intros Hsz Hq'. destruct (merge_step_spec q Hsz) as (l & r & _ & _ & Hm & Hc & _).
  rewrite Hm in Hq'. injection Hq' as <-.
  rewrite !pq_size_contents, contents_push, Hc. done.
Qed.

Lemma merge_step_invariant P (q q' : pq) :
  merge_invariant P → (1 < pq_size q)%nat → merge_step q = Some q' →
  P (contents q) → P (contents q').
Proof.
  intros HP Hsz Hq' Hq.
  destruct (merge_step_spec q Hsz) as (l & r & _ & _ & Hm & Hc & H1 & H2).
  rewrite Hm in Hq'. injection Hq' as <-.
  eapply (inv_perm P HP); [symmetry; apply contents_push|].
  apply (inv_merge P HP); [|done..].
  by eapply (inv_perm P HP).
Qed.

Lemma build_loop_invariant P fuel (q q' : pq) :
  merge_invariant P → build_loop fuel q = Some q' →
  P (contents q) → P (contents q').
Proof.
  intros HP. revert q. induction fuel as [|fuel IH]; intros q; simpl.
  - case_decide; [done|]. by intros [= ->].
  - case_decide as Hsz; [|by intros [= ->]].
    destruct (merge_step q) as [q1|] eqn:Hq1; simpl; [|done].
    intros Hrun Hq. apply (IH q1 Hrun).
    by eapply merge_step_invariant.
Qed.

(** The loop ends: as much fuel as the queue has elements is enough, and
    it leaves one element when it started with at least one. *)
Lemma build_loop_terminates fuel (q : pq) :
  (pq_size q ≤ S fuel)%nat →
  ∃ q', build_loop fuel q = Some q' ∧ (pq_size q' ≤ 1)%nat
        ∧ (pq_size q ≠ 0%nat → pq_size q' = 1%nat).
Proof.
  revert q. induction fuel as [|fuel IH]; intros q Hle; simpl.
  - case_decide; [lia|]. exists q. split; [done|]. lia.
  - case_decide as Hsz; [|exists q; split; [done|lia]].
    destruct (merge_step_spec q Hsz) as (l & r & _ & _ & Hm & _).
    rewrite Hm. simpl.
    pose proof (merge_step_size _ _ Hsz Hm) as Hs.
    destruct (IH (pq_push (internal_node l r) (pq_pop (pq_pop q))))
      as (q' & Hq' & H1 & H2); [lia|].
    exists q'. split; [done|]. split; [done|]. intros _. apply H2. lia.
Qed.

(** The tree builder returns a tree for every frequency map that is not
    empty, and the tree satisfies every invariant of the loop that the
    initial leaves satisfy. *)
Lemma build_tree_spec (m : gmap ascii Z) :
  m ≠ ∅ →
  ∃ root, build_tree m = Some root
          ∧ ∀ P, merge_invariant P → P (leaf_of <$> map_to_list m) →
                 P [root].
Proof.
  intros Hm. unfold build_tree.
  destruct (build_loop_terminates (pq_size (initial_queue m)) (initial_queue m))
    as (q' & Hq' & _ & Hone); [lia|].
  rewrite Hq'. simpl.
  assert (pq_size (initial_queue m) ≠ 0%nat) as Hsz.
  { rewrite pq_size_contents, initial_contents, length_fmap.
    rewrite length_map_to_list. by apply map_size_non_empty_iff. }
  specialize (Hone Hsz). rewrite pq_size_contents in Hone.
  assert (contents q' ≠ []) as Hne by (destruct (contents q'); done).
  destruct (pq_top_pop q' Hne) as (root & Hroot & Hp & _).
  exists root. split; [done|]. intros P HP Hinit.
  assert (contents q' ≡ₚ [root]) as Hc.
  { rewrite Hp in Hone |- *. simpl in Hone.
    destruct (contents (pq_pop q')); [done|simpl in Hone; lia]. }
  eapply (inv_perm P HP); [exact Hc|].
  eapply build_loop_invariant; [done|exact Hq'|].
  eapply (inv_perm P HP); [symmetry; apply initial_contents|done].
Qed.
End Loop.

(** ** Full trees *)

Lemma isLeaf_children n :
  isLeaf n = true ↔ left n = None ∧ right n = None.
Proof.
  destruct n as [d f [l|] [r|]]; unfold isLeaf; simpl;
    split; try done; intros [??]; done.
Qed.

Lemma full_cases n :
  full n →
  (left n = None ∧ right n = None)
  ∨ (∃ l r, left n = Some l ∧ right n = Some r
            ∧ freq n = freq l + freq r ∧ full l ∧ full r).
Proof.
  intros [d f|d l r Hl Hr]; simpl.
  - left. done.
  - right. exists l, r. done.
Qed.

Lemma walk_app n p1 p2 :
  walk n (p1 ++ p2) = walk n p1 ≫= λ n', walk n' p2.
Proof.
  revert n. induction p1 as [|b p1 IH]; intros n; simpl; [reflexivity|].
  destruct (child b n) as [n1|]; simpl; [apply IH|reflexivity].
Qed.

Lemma walk_leaf n b p : isLeaf n = true → walk n (b :: p) = None.
Proof.
  intros [Hl Hr]%isLeaf_children. simpl. unfold child.
  destruct (Ascii.eqb b bit0); [by rewrite Hl|by rewrite Hr].
Qed.

Lemma child_full b n n' : full n → child b n = Some n' → full n'.
Proof.
  intros [[Hl Hr]|(l & r & Hl & Hr & _ & Hfl & Hfr)]%full_cases;
    unfold child; destruct (Ascii.eqb b bit0); rewrite ?Hl, ?Hr; naive_solver.
Qed.

Lemma walk_full n p n' : full n → walk n p = Some n' → full n'.
Proof.
  revert n. induction p as [|b p IH]; intros n Hn; simpl; [naive_solver|].
  destruct (child b n) as [n1|] eqn:Hc; simpl; [|done].
  apply IH. by eapply child_full.
Qed.

Lemma child_leaves b n n' :
  full n → child b n = Some n' → leaves n' ⊆ leaves n.
Proof.
  destruct 1 as [d f|d l r Hl Hr]; unfold child; simpl;
    destruct (Ascii.eqb b bit0); intros [= <-]; set_solver.
Qed.

Lemma walk_leaves n p n' :
  full n → walk n p = Some n' → leaves n' ⊆ leaves n.
Proof.
  revert n. induction p as [|b p IH]; intros n Hn; simpl; [naive_solver|].
  destruct (child b n) as [n1|] eqn:Hc; simpl; [|done].
  intros Hw. etrans; [apply (IH n1); [by eapply child_full|done]|].
  by eapply child_leaves.
Qed.

Lemma leaves_of_leaf n :
  isLeaf n = true → leaves n = [(data n, freq n)].
Proof. destruct n as [d f [l|] [r|]]; unfold isLeaf; simpl; done. Qed.

Lemma walk_leaf_elem n p n' :
  full n → walk n p = Some n' → isLeaf n' = true →
  (data n', freq n') ∈ leaves n.
Proof.
  intros Hn Hw Hl. apply (walk_leaves n p n' Hn Hw).
  rewrite (leaves_of_leaf _ Hl). left.
Qed.

Lemma full_freq_pos n :
  full n → Forall (λ x, 1 ≤ x.2) (leaves n) → 1 ≤ freq n.
Proof.
  induction 1 as [d f|d l r Hl IHl Hr IHr]; simpl.
  - intros H. apply Forall_inv in H. exact H.
  - intros [H1 H2]%Forall_app. specialize (IHl H1). specialize (IHr H2). lia.
Qed.

Lemma walk_freq_pos n p n' :
  full n → Forall (λ x, 1 ≤ x.2) (leaves n) → walk n p = Some n' →
  1 ≤ freq n'.
Proof.
  intros Hn Hpos Hw. apply full_freq_pos; [by eapply walk_full|].
  apply Forall_forall. intros x Hx.
  eapply (proj1 (Forall_forall _ _) Hpos).
  by eapply walk_leaves.
Qed.

(** ** Invariants of the loop *)

Lemma forest_full_invariant : merge_invariant (Forall full).
Proof.
  split.
  - intros F F' HF. by rewrite HF.
  - intros l r rest [Hl [Hr Hrest]%Forall_cons]%Forall_cons _ _.
    constructor; [|done]. by constructor.
Qed.

Lemma forest_leaves_invariant (L : list (ascii * Z)) :
  merge_invariant (λ F, F ≫= leaves ≡ₚ L).
Proof.
  split.
  - intros F F' HF. by rewrite HF.
  - intros l r rest HL _ _. rewrite <- HL. simpl.
    by rewrite <- app_assoc.
Qed.

Lemma ordered_sym n1 n2 : ordered n1 n2 → ordered n2 n1.
Proof. intros [H|H]; [right|left]; intros a b Ha Hb; by apply H. Qed.

Section OrderedPairs.
Context {A : Type} (R : A → A → Prop).

Lemma FOP_perm l l' :
  (∀ x y, R x y → R y x) → l ≡ₚ l' →
  ForallOrdPairs R l → ForallOrdPairs R l'.
Proof.
  intros Hsym. induction 1 as [|x l l' Hp IH|x y l|l1 l2 l3 _ IH1 _ IH2].
  - done.
  - inversion 1; subst. constructor; [by rewrite <- Hp|by apply IH].
  - inversion 1 as [|? ? Hy Hrest]; subst.
    inversion Hrest as [|? ? Hx Hl]; subst.
    apply Forall_cons in Hy as [Hyx Hy].
    constructor; [|by constructor].
    constructor; [by apply Hsym|done].
  - intros H. by apply IH2, IH1.
Qed.

Lemma FOP_app l1 l2 :
  ForallOrdPairs R (l1 ++ l2) →
  ForallOrdPairs R l1 ∧ ForallOrdPairs R l2
  ∧ ∀ x y, x ∈ l1 → y ∈ l2 → R x y.
Proof.
  induction l1 as [|a l1 IH]; simpl.
  - intros H. split; [constructor|]. split; [done|].
    intros x y Hx. by apply elem_of_nil in Hx.
  - inversion 1 as [|? ? Ha Hrest]; subst.
    destruct (IH Hrest) as (H1 & H2 & H3).
    apply Forall_app in Ha as [Ha1 Ha2].
    split; [by constructor|]. split; [done|].
    intros x y [->|Hx]%elem_of_cons Hy.
    + by eapply (proj1 (Forall_forall _ _) Ha2).
    + by apply H3.
Qed.
End OrderedPairs.

Lemma kids_internal_node l r : kids (internal_node l r) = [freq l; freq r].
Proof. done. Qed.

Lemma merge_order_invariant : merge_invariant merge_order.
Proof.
  split.
  - intros F F' HF (Hpos & Hbelow & Hord). split; [by rewrite <- HF|]. split.
    + intros n a t Hn Ha Ht. rewrite <- HF in Hn, Ht. by eapply Hbelow.
    + eapply FOP_perm; [apply ordered_sym| |exact Hord]. by rewrite HF.
  - intros l r rest (Hpos & Hbelow & Hord) Hl Hr.
    apply Forall_cons in Hpos as [Hl0 [Hr0 Hpos]%Forall_cons].
    assert (∀ n a, n ∈ (l :: r :: rest) ≫= internals → a ∈ kids n →
                   a ≤ freq l ∧ a ≤ freq r) as Hold.
    { intros n a Hn Ha. split; eapply Hbelow; try done.
      - left.
      - right; left. }
    assert ((internal_node l r :: rest) ≫= internals
            = internal_node l r :: (l :: r :: rest) ≫= internals) as Heq.
    { simpl. by rewrite <- app_assoc. }
    split; [|split].
    + constructor; [simpl; lia|done].
    + intros n a t. rewrite Heq.
      intros [->|Hn]%elem_of_cons Ha [->|Ht]%elem_of_cons.
      * rewrite kids_internal_node in Ha. simpl.
        apply elem_of_cons in Ha as [->|Ha]; [lia|].
        apply list_elem_of_singleton in Ha as ->. lia.
      * rewrite kids_internal_node in Ha.
        apply Forall_cons in Hl as [Hlr Hl].
        apply elem_of_cons in Ha as [->|Ha].
        -- by eapply (proj1 (Forall_forall _ _) Hl).
        -- apply list_elem_of_singleton in Ha as ->.
           by eapply (proj1 (Forall_forall _ _) Hr).
      * destruct (Hold n a Hn Ha). simpl. lia.
      * eapply Hbelow; [done..|]. by do 2 right.
    + rewrite Heq. constructor; [|done].
      apply Forall_forall. intros n Hn. right. intros a b Ha Hb.
      destruct (Hold n b Hn Hb).
      rewrite kids_internal_node in Ha.
      apply elem_of_cons in Ha as [->|Ha]; [done|].
      by apply list_elem_of_singleton in Ha as ->.
Qed.

Lemma merge_order_initial (L : list (ascii * Z)) :
  Forall (λ x, 0 ≤ x.2) L → merge_order (leaf_of <$> L).
Proof.
  intros HL.
  assert ((leaf_of <$> L) ≫= internals = []) as Heq.
  { clear HL. induction L as [|x L IH]; [done|]. simpl. exact IH. }
  split; [|split].
  - apply Forall_fmap. eapply Forall_impl; [exact HL|]. by intros [c f].
  - intros n a t Hn. rewrite Heq in Hn. by apply elem_of_nil in Hn.
  - rewrite Heq. constructor.
Qed.

(** ** Heavier nodes are nearer to the root *)

Lemma child_sibling b m n :
  full m → child b m = Some n →
  ∃ b' s, child b' m = Some s
          ∧ freq m = freq n + freq s
          ∧ isLeaf m = false
          ∧ (∀ a, a ∈ kids m ↔ a = freq n ∨ a = freq s).
Proof.
  intros [d f|d l r Hl Hr]; unfold child; simpl.
  - by destruct (Ascii.eqb b bit0).
  - destruct (Ascii.eqb b bit0) eqn:Hb; intros [= <-].
    + exists bit1, r. split; [done|]. split; [done|]. split; [done|].
      intros a. unfold kids; simpl. set_solver.
    + exists bit0, l. split; [done|]. split; [lia|]. split; [done|].
      intros a. unfold kids; simpl. set_solver.
Qed.

Lemma child_positive b m n :
  full m → positive m → child b m = Some n → positive n.
Proof.
  intros Hm Hpos Hc. apply Forall_forall. intros x Hx.
  apply (proj1 (Forall_forall _ _) Hpos). by eapply child_leaves.
Qed.

Lemma walk_positive t p n :
  full t → positive t → walk t p = Some n → positive n.
Proof.
  intros Ht Hpos Hw. apply Forall_forall. intros x Hx.
  apply (proj1 (Forall_forall _ _) Hpos). by eapply walk_leaves.
Qed.

Lemma child_freq_le b m n :
  full m → positive m → child b m = Some n → freq n ≤ freq m.
Proof.
  intros Hm Hpos Hc.
  destruct (child_sibling b m n Hm Hc) as (b' & s & Hs & Hsum & _).
  assert (1 ≤ freq s); [|lia].
  apply full_freq_pos; [by eapply child_full|by eapply child_positive].
Qed.

Lemma walk_freq_le t p n :
  full t → positive t → walk t p = Some n → freq n ≤ freq t.
Proof.
  revert t. induction p as [|b p IH]; intros t Ht Hpos; simpl.
  - intros [= ->]. lia.
  - destruct (child b t) as [c|] eqn:Hc; simpl; [|done]. intros Hw.
    pose proof (child_freq_le b t c Ht Hpos Hc).
    assert (freq n ≤ freq c); [|lia].
    apply IH; [by eapply child_full|by eapply child_positive|done].
Qed.

Lemma walk_snoc t p b n :
  walk t (p ++ [b]) = Some n ↔
  ∃ m, walk t p = Some m ∧ child b m = Some n.
Proof.
  rewrite walk_app. destruct (walk t p) as [m|]; simpl.
  - destruct (child b m) as [c|] eqn:Hc; simpl.
    + split; [intros [= <-]; by exists m|].
      intros (m' & [= <-] & Hc'). congruence.
    + split; [done|]. intros (m' & [= <-] & Hc'). congruence.
  - split; [done|]. by intros (m' & ? & _).
Qed.

Lemma walk_internal t p m :
  full t → walk t p = Some m → isLeaf m = false → m ∈ internals t.
Proof.
  intros Ht. revert p. induction Ht as [d f|d l r Hl IHl Hr IHr]; intros p.
  - destruct p as [|b p]; [by intros [= <-]|].
    by rewrite walk_leaf.
  - destruct p as [|b p]; simpl.
    + intros [= <-] _. left.
    + unfold child; simpl. destruct (Ascii.eqb b bit0); simpl; intros Hw Hm.
      * right. apply elem_of_app. left. by eapply IHl.
      * right. apply elem_of_app. right. by eapply IHr.
Qed.

(** Nodes at different depths of one tree are distinct, hence ordered. *)
Lemma ordered_depths t :
  full t → ForallOrdPairs ordered (internals t) →
  ∀ p1 p2 m1 m2,
    walk t p1 = Some m1 → walk t p2 = Some m2 →
    isLeaf m1 = false → isLeaf m2 = false →
    length p1 ≠ length p2 → ordered m1 m2.
Proof.
  induction 1 as [d f|d l r Hl IHl Hr IHr]; intros Hord p1 p2 m1 m2.
  - destruct p1 as [|b1 p1]; [by intros [= <-]|]. by rewrite walk_leaf.
  - change (internals (mkNode d (freq l + freq r) (Some l) (Some r)))
      with (mkNode d (freq l + freq r) (Some l) (Some r)
            :: internals l ++ internals r) in Hord.
    inversion Hord as [|? ? Hroot Hrest]; subst.
    destruct (FOP_app _ _ _ Hrest) as (Hol & Hor & Hcross).
    assert (∀ b p m, walk (mkNode d (freq l + freq r) (Some l) (Some r))
                       (b :: p) = Some m → isLeaf m = false →
                     m ∈ internals l ++ internals r) as Hin.
    { intros b p m. simpl. unfold child; simpl.
      destruct (Ascii.eqb b bit0); simpl; intros Hw Hm; apply elem_of_app.
      - left. by eapply walk_internal.
      - right. by eapply walk_internal. }
    destruct p1 as [|b1 p1], p2 as [|b2 p2]; [done| | |].
    + intros [= <-] Hw2 _ Hm2 _.
      eapply (proj1 (Forall_forall _ _) Hroot). by eapply Hin.
    + intros Hw1 [= <-] Hm1 _ _. apply ordered_sym.
      eapply (proj1 (Forall_forall _ _) Hroot). by eapply Hin.
    + simpl. unfold child; simpl.
      destruct (Ascii.eqb b1 bit0), (Ascii.eqb b2 bit0); simpl;
        intros Hw1 Hw2 Hm1 Hm2 Hlen.
      * eapply (IHl Hol p1 p2); [done..|lia].
      * apply Hcross; by eapply walk_internal.
      * apply ordered_sym. apply Hcross; by eapply walk_internal.
      * eapply (IHr Hor p1 p2); [done..|lia].
Qed.

Section Levels.
Context (t : HuffmanNode) (Hfull : full t) (Hpos : positive t)
        (Hord : ForallOrdPairs ordered (internals t)).

(** A node weighs no more than any node one level above it. *)
Lemma level_step d p1 p2 n1 n2 :
  length p1 = d → length p2 = S d →
  walk t p1 = Some n1 → walk t p2 = Some n2 →
  freq n2 ≤ freq n1.
Proof using Hfull Hpos Hord.
  revert p1 p2 n1 n2. induction d as [|d IH]; intros p1 p2 n1 n2 H1 H2.
  - destruct p1; [|done]. intros [= <-].
    apply (walk_freq_le t p2 n2 Hfull Hpos).
  - destruct (exists_last (l:=p1)) as (q1 & b1 & ->);
      [by destruct p1|].
    destruct (exists_last (l:=p2)) as (q2 & b2 & ->);
      [by destruct p2|].
    rewrite length_app in H1, H2. simpl in H1, H2.
    intros (m1 & Hm1 & Hc1)%walk_snoc (m2 & Hm2 & Hc2)%walk_snoc.
    assert (freq m2 ≤ freq m1) as Hm by (eapply (IH q1 q2); [lia|lia|done..]).
    pose proof (walk_full _ _ _ Hfull Hm1) as Hf1.
    pose proof (walk_full _ _ _ Hfull Hm2) as Hf2.
    destruct (child_sibling _ _ _ Hf1 Hc1) as (? & s1 & _ & Hs1 & Hl1 & Hk1).
    destruct (child_sibling _ _ _ Hf2 Hc2) as (? & s2 & _ & Hs2 & Hl2 & Hk2).
    assert (ordered m1 m2) as [Ho|Ho].
    { eapply (ordered_depths t Hfull Hord q1 q2); [done..|lia]. }
    + assert (freq n1 ≤ freq n2) by (apply Ho; [apply Hk1|apply Hk2]; by left).
      assert (freq s1 ≤ freq s2) by (apply Ho; [apply Hk1|apply Hk2]; by right).
      lia.
    + apply Ho; [apply Hk1|apply Hk2]; by left.
Qed.

(** A node weighs no more than any node above its level. *)
Lemma deeper_lighter p1 p2 n1 n2 :
  walk t p1 = Some n1 → walk t p2 = Some n2 →
  (length p1 < length p2)%nat → freq n2 ≤ freq n1.
Proof using Hfull Hpos Hord.
  intros Hw1 Hw2 Hlen.
  rewrite <- (take_drop (S (length p1)) p2), walk_app in Hw2.
  destruct (walk t (take (S (length p1)) p2)) as [m|] eqn:Hm; [|done].
  simpl in Hw2.
  assert (freq m ≤ freq n1).
  { eapply (level_step (length p1) p1); [done| |done..].
    rewrite length_take. lia. }
  assert (freq n2 ≤ freq m); [|lia].
  eapply walk_freq_le; [by eapply walk_full|by eapply walk_positive|done].
Qed.

(** A strictly heavier node is at most as deep. *)
Lemma heavier_higher p1 p2 n1 n2 :
  walk t p1 = Some n1 → walk t p2 = Some n2 →
  freq n2 < freq n1 → (length p1 ≤ length p2)%nat.
Proof using Hfull Hpos Hord.
  intros Hw1 Hw2 Hlt.
  destruct (decide (length p1 ≤ length p2)%nat) as [|Hn]; [done|].
  assert (freq n1 ≤ freq n2); [|lia].
  eapply (deeper_lighter p2 p1); [done..|lia].
Qed.
End Levels.

(** ** The frequency map *)

Lemma total_perm L L' : L ≡ₚ L' → total L = total L'.
Proof. induction 1; simpl; lia. Qed.

Lemma total_app L1 L2 : total (L1 ++ L2) = total L1 + total L2.
Proof. induction L1 as [|x L1 IH]; simpl; lia. Qed.

Lemma count_char_lookup m c x :
  count_char m c !! x
  = if decide (c = x) then Some (default 0 (m !! c) + 1) else m !! x.
Proof. unfold count_char. apply lookup_insert. Qed.

Lemma count_char_total m c :
  total (map_to_list (count_char m c)) = total (map_to_list m) + 1.
Proof.
  unfold count_char. destruct (m !! c) as [v|] eqn:Hv; simpl.
  - rewrite <- (insert_delete_eq m).
    rewrite (total_perm _ _ (map_to_list_insert _ c (v + 1) (lookup_delete_eq m c))).
    rewrite <- (total_perm _ _ (map_to_list_delete m c v Hv)). simpl. lia.
  - rewrite (total_perm _ _ (map_to_list_insert m c (0 + 1) Hv)). simpl. lia.
Qed.

Lemma foldl_count_total text m :
  total (map_to_list (foldl count_char m text))
  = total (map_to_list m) + Z.of_nat (length text).
Proof.
  revert m. induction text as [|c text IH]; intros m; simpl; [lia|].
  rewrite IH, count_char_total. lia.
Qed.

Lemma foldl_count_pos text m :
  map_Forall (λ _ f, 1 ≤ f) m →
  map_Forall (λ _ f, 1 ≤ f) (foldl count_char m text).
Proof.
  revert m. induction text as [|c text IH]; intros m Hm; simpl; [done|].
  apply IH. intros x f. rewrite count_char_lookup.
  case_decide as Hx; [|apply Hm].
  intros [= <-]. destruct (m !! c) as [v|] eqn:Hv; simpl; [|lia].
  specialize (Hm c v Hv). simpl in Hm. lia.
Qed.

Lemma foldl_count_dom text m x :
  is_Some (foldl count_char m text !! x) ↔ x ∈ text ∨ is_Some (m !! x).
Proof.
  revert m. induction text as [|c text IH]; intros m; simpl.
  - split; [by right|]. intros [H|H]; [by apply elem_of_nil in H|done].
  - rewrite IH, count_char_lookup, elem_of_cons.
    case_decide as Hx; [subst|naive_solver].
    split; [intros _; by do 2 left|by right].
Qed.

(** The sum of the frequencies is the length of the text. *)
Lemma count_frequencies_total text :
  total (map_to_list (count_frequencies text)) = Z.of_nat (length text).
Proof.
  unfold count_frequencies. rewrite foldl_count_total.
  by rewrite map_to_list_empty.
Qed.

Lemma count_frequencies_pos text c f :
  count_frequencies text !! c = Some f → 1 ≤ f.
Proof.
  apply (foldl_count_pos text ∅). apply map_Forall_empty.
Qed.

(** The map records exactly the characters of the text. *)
Lemma count_frequencies_dom text c :
  is_Some (count_frequencies text !! c) ↔ c ∈ text.
Proof.
  unfold count_frequencies. rewrite foldl_count_dom, lookup_empty.
  split; [intros [H|H]; [done|by destruct H]|by left].
Qed.

Lemma count_frequencies_nonempty text :
  text ≠ [] → count_frequencies text ≠ ∅.
Proof.
  destruct text as [|c text]; [done|]. intros _ He.
  assert (is_Some (count_frequencies (c :: text) !! c)) as [f Hf].
  { apply count_frequencies_dom. left. }
  by rewrite He, lookup_empty in Hf.
Qed.

(** The run on [text] with the map that is iterated newest key first takes
    its leaves in the order [newest_first text]. *)
Lemma newest_first_iteration text :
  @iteration (newest_first_order text) (count_frequencies text)
  = newest_first text.
Proof. simpl. by rewrite decide_True. Qed.

Lemma full_freq_total n : full n → freq n = total (leaves n).
Proof.
  induction 1 as [d f|d l r Hl IHl Hr IHr]; simpl; [lia|].
  rewrite total_app. lia.
Qed.

Lemma full_leaves_nonempty n : full n → leaves n ≠ [].
Proof.
  induction 1 as [d f|d l r Hl IHl Hr IHr]; simpl; [done|].
  by destruct (leaves l).
Qed.

(** A full tree with one leaf is that leaf. *)
Lemma full_single_leaf n c f :
  full n → leaves n = [(c, f)] → n = leaf_node c f.
Proof.
  intros [d g|d l r Hl Hr]; simpl.
  - by intros [= -> ->].
  - intros Heq. pose proof (full_leaves_nonempty l Hl).
    pose proof (full_leaves_nonempty r Hr).
    destruct (leaves l) as [|x [|y L]], (leaves r); simplify_eq/=.
Qed.

Lemma leaf_forest_leaves (L : list (ascii * Z)) :
  (leaf_of <$> L) ≫= leaves = L.
Proof.
  induction L as [|[c f] L IH]; [done|]. simpl.
  change ((c, f) :: (leaf_of <$> L) ≫= leaves = (c, f) :: L). by rewrite IH.
Qed.

(** ** The tree of a text *)

Section Tree.
Context `{Q : !PriorityQueue HuffmanNode Compare} `{I : !MapIteration}.

(** On the empty map the queue is empty and [pq.top()] has no value. *)
Lemma build_tree_empty : build_tree ∅ = None.
Proof.
  unfold build_tree.
  destruct (build_loop _ _) as [q'|] eqn:Hq'; [|done]. simpl.
  apply pq_top_empty.
  eapply (build_loop_invariant (λ F, F = [])); [|exact Hq'|].
  - split; [|done]. intros F F' HF ->. by apply Permutation_nil.
  - apply Permutation_nil. symmetry.
    rewrite initial_contents. by rewrite map_to_list_empty.
Qed.

Lemma build_tree_shape (m : gmap ascii Z) :
  m ≠ ∅ →
  ∃ root, build_tree m = Some root ∧ full root
          ∧ leaves root ≡ₚ map_to_list m.
Proof.
  intros Hm. destruct (build_tree_spec m Hm) as (root & Hroot & Hinv).
  exists root. split; [done|]. split.
  - specialize (Hinv _ forest_full_invariant).
    apply Forall_inv in Hinv; [done|].
    apply Forall_fmap, Forall_forall. intros [c f] _. constructor.
  - specialize (Hinv _ (forest_leaves_invariant (map_to_list m))).
    simpl in Hinv. rewrite app_nil_r in Hinv. apply Hinv.
    by rewrite leaf_forest_leaves.
Qed.

Lemma build_tree_order (m : gmap ascii Z) root :
  map_Forall (λ _ f, 1 ≤ f) m → build_tree m = Some root →
  positive root ∧ ForallOrdPairs ordered (internals root).
Proof.
  intros Hpos Hroot.
  assert (m ≠ ∅) as Hm.
  { intros ->. by rewrite build_tree_empty in Hroot. }
  destruct (build_tree_spec m Hm) as (root' & Hroot' & Hinv).
  rewrite Hroot in Hroot'. injection Hroot' as <-.
  assert (Forall (λ x : ascii * Z, 1 ≤ x.2) (map_to_list m)) as Hentries.
  { apply Forall_forall. intros [c f] Hx.
    apply elem_of_map_to_list in Hx. by apply (Hpos c f). }
  split.
  - specialize (Hinv _ (forest_leaves_invariant (map_to_list m))).
    simpl in Hinv. rewrite app_nil_r in Hinv. unfold positive.
    rewrite Hinv; [done|]. by rewrite leaf_forest_leaves.
  - destruct (Hinv _ merge_order_invariant) as (_ & _ & Hord).
    + apply merge_order_initial. eapply Forall_impl; [exact Hentries|].
      intros x Hx. simpl in Hx. lia.
    + simpl in Hord. by rewrite app_nil_r in Hord.
Qed.

(** The facts about the tree of a text that the rest builds on. *)
Lemma root_of_spec text :
  text ≠ [] →
  ∃ root, root_of text = Some root ∧ full root
          ∧ leaves root ≡ₚ map_to_list (count_frequencies text)
          ∧ positive root
          ∧ ForallOrdPairs ordered (internals root).
Proof.
  intros Ht. unfold root_of, freqMap_of.
  destruct (build_tree_shape (count_frequencies text))
    as (root & Hroot & Hfull & Hleaves);
    [by apply count_frequencies_nonempty|].
  exists root. split; [done|]. split; [done|]. split; [done|].
  apply (build_tree_order (count_frequencies text)); [|done].
  intros c f. apply count_frequencies_pos.
Qed.

(** Every frequency stored in the tree of a text is at least one and at
    most the length of the text. *)
Lemma freq_bounded text root p n :
  root_of text = Some root → walk root p = Some n →
  1 ≤ freq n ≤ Z.of_nat (length text).
Proof.
  intros Hroot Hw.
  destruct text as [|c text].
  { change (build_tree ∅ = Some root) in Hroot.
    by rewrite build_tree_empty in Hroot. }
  destruct (root_of_spec (c :: text)) as (r & Hr & Hfull & Hleaves & Hpos & _);
    [done|].
  rewrite Hroot in Hr. injection Hr as <-.
  split; [by eapply walk_freq_pos|].
  pose proof (walk_freq_le root p n Hfull Hpos Hw).
  rewrite (full_freq_total root Hfull) in H.
  rewrite (total_perm _ _ Hleaves), count_frequencies_total in H. done.
Qed.
End Tree.

(** ** The code table *)

Lemma generateCodes_at_store n code m :
  full n → generateCodes_at n code m = foldl store m (code_list n code).
Proof.
  intros Hn. revert code m.
  induction Hn as [d f|d l r Hl IHl Hr IHr]; intros code m; simpl.
  - by destruct code.
  - by rewrite foldl_app, IHl, IHr.
Qed.

Lemma foldl_store_lookup l m c cd :
  foldl store m l !! c = Some cd → (c, cd) ∈ l ∨ m !! c = Some cd.
Proof.
  revert m. induction l as [|[x y] l IH]; intros m; simpl; [by right|].
  intros [H|H]%IH; [left; by right|].
  unfold store in H; simpl in H. rewrite lookup_insert in H.
  case_decide; [|by right]. simplify_eq. left. left.
Qed.

Lemma foldl_store_is_Some l m c :
  is_Some (foldl store m l !! c) ↔ c ∈ l.*1 ∨ is_Some (m !! c).
Proof.
  revert m. induction l as [|[x y] l IH]; intros m; simpl.
  - split; [by right|]. intros [H|H]; [by apply elem_of_nil in H|done].
  - rewrite IH. unfold store; simpl. rewrite lookup_insert, elem_of_cons.
    case_decide; [subst|naive_solver].
    split; [intros _; by do 2 left|by right].
Qed.

Lemma code_list_keys n code : full n → (code_list n code).*1 = (leaves n).*1.
Proof.
  intros Hn. revert code.
  induction Hn as [d f|d l r Hl IHl Hr IHr]; intros code; simpl; [done|].
  by rewrite !fmap_app, IHl, IHr.
Qed.

(** A stored code is the path to a leaf that carries the character; the
    empty path is stored as "0". *)
Lemma code_list_walk n code c cd :
  full n → (c, cd) ∈ code_list n code →
  ∃ p lf, walk n p = Some lf ∧ isLeaf lf = true ∧ data lf = c
          ∧ cd = match code ++ p with [] => [bit0] | x => x end.
Proof.
  intros Hn. revert code.
  induction Hn as [d f|d l r Hl IHl Hr IHr]; intros code; simpl.
  - intros [= -> ->]%list_elem_of_singleton.
    exists [], (mkNode d f None None). rewrite app_nil_r.
    split; [done|]. split; [done|]. split; [done|]. by destruct code.
  - intros [H|H]%elem_of_app.
    + destruct (IHl _ H) as (p & lf & Hw & Hlf & Hd & Hcd).
      exists (bit0 :: p), lf. split; [done|]. split; [done|]. split; [done|].
      by rewrite <- app_assoc in Hcd.
    + destruct (IHr _ H) as (p & lf & Hw & Hlf & Hd & Hcd).
      exists (bit1 :: p), lf. split; [done|]. split; [done|]. split; [done|].
      by rewrite <- app_assoc in Hcd.
Qed.

(** A stored code holds no character other than "0" and "1". *)
Lemma code_list_bits n code c cd :
  full n → Forall (λ bit, bit = bit0 ∨ bit = bit1) code →
  (c, cd) ∈ code_list n code →
  Forall (λ bit, bit = bit0 ∨ bit = bit1) cd.
Proof.
  intros Hn. revert code.
  induction Hn as [d f|d l r Hl IHl Hr IHr]; intros code Hcode; simpl.
  - intros [= -> ->]%list_elem_of_singleton.
    destruct code; [|done]. constructor; [by left|done].
  - intros [H|H]%elem_of_app.
    + apply (IHl (code ++ [bit0])); [|done].
      apply Forall_app. split; [done|]. constructor; [by left|done].
    + apply (IHr (code ++ [bit1])); [|done].
      apply Forall_app. split; [done|]. constructor; [by right|done].
Qed.

Lemma encode_bind codes text : encode codes text = text ≫= code_of codes.
Proof.
  unfold encode.
  assert (∀ acc, foldl (λ e c, e ++ code_of codes c) acc text
                 = acc ++ (text ≫= code_of codes)) as H.
  { induction text as [|c text IH]; intros acc; simpl.
    - by rewrite app_nil_r.
    - by rewrite IH, <- app_assoc. }
  apply H.
Qed.

(** ** The decoding loop *)

Section Decoding.
Context (root : HuffmanNode).

Lemma decode_from_cons st bit bits :
  decode_from root st (bit :: bits)
  = decode_step root st bit ≫= λ st', decode_from root st' bits.
Proof.
  unfold decode_from. simpl. destruct (decode_step root st bit); simpl; [done|].
  induction bits as [|b bits IH]; simpl; done.
Qed.

Lemma decode_from_app st bits1 bits2 :
  decode_from root st (bits1 ++ bits2)
  = decode_from root st bits1 ≫= λ st', decode_from root st' bits2.
Proof.
  revert st. induction bits1 as [|b bits1 IH]; intros st; [done|].
  rewrite <- app_comm_cons, !decode_from_cons.
  destruct (decode_step root st b) as [st1|]; simpl; [apply IH|done].
Qed.

Lemma decode_step_child cur out bit n :
  child bit cur = Some n →
  decode_step root (cur, out) bit
  = if isLeaf n then Some (root, out ++ [data n]) else Some (n, out).
Proof. unfold decode_step, child. by intros ->. Qed.

Lemma decode_step_null cur out bit :
  child bit cur = None → decode_step root (cur, out) bit = None.
Proof. unfold decode_step, child. by intros ->. Qed.

(** Inside a code the cursor follows the path and nothing is written. *)
Lemma decode_inside p : ∀ cur out bit n,
  walk cur (p ++ [bit]) = Some n →
  ∃ n', walk cur p = Some n'
        ∧ decode_from root (cur, out) p = Some (n', out).
Proof.
  induction p as [|b p IH]; intros cur out bit n; simpl.
  - intros _. by exists cur.
  - destruct (child b cur) as [c1|] eqn:Hc; simpl; [|done]. intros Hw.
    destruct (IH c1 out bit n Hw) as (n' & Hn' & Hdec).
    exists n'. split; [done|].
    rewrite decode_from_cons, (decode_step_child _ _ _ _ Hc).
    destruct (isLeaf c1) eqn:Hl; [|done].
    destruct p as [|b' p'];
      [change ([] ++ [bit]) with [bit] in Hw
      |rewrite <- app_comm_cons in Hw];
      by rewrite walk_leaf in Hw.
Qed.

(** At the end of a code its character is written and the cursor is back
    at the root. *)
Lemma decode_code p cur out lf :
  walk cur p = Some lf → isLeaf lf = true → p ≠ [] →
  decode_from root (cur, out) p = Some (root, out ++ [data lf]).
Proof.
  intros Hw Hlf Hp.
  destruct (exists_last Hp) as (q & bit & ->).
  destruct (decode_inside q cur out bit lf Hw) as (n' & Hn' & Hdec).
  apply walk_snoc in Hw as (m & Hm & Hc).
  rewrite Hn' in Hm. injection Hm as <-.
  rewrite decode_from_app, Hdec. simpl.
  rewrite decode_from_cons, (decode_step_child _ _ _ _ Hc), Hlf. done.
Qed.

Lemma decode_codes codes syms out :
  Forall (decodable root codes) syms →
  decode_from root (root, out) (syms ≫= code_of codes)
  = Some (root, out ++ syms).
Proof.
  intros Hs. revert out.
  induction Hs as [|c syms (lf & Hw & Hlf & Hd & Hne) _ IH]; intros out.
  - by rewrite app_nil_r.
  - simpl. rewrite decode_from_app, (decode_code _ _ _ lf Hw Hlf Hne). simpl.
    rewrite IH, Hd, <- app_assoc. done.
Qed.
End Decoding.

(** ** The table of a text *)

Section Table.
Context `{Q : !PriorityQueue HuffmanNode Compare} `{I : !MapIteration}.

Lemma root_of_empty : root_of [] = None.
Proof. apply build_tree_empty. Qed.

Lemma root_of_facts text root :
  root_of text = Some root →
  text ≠ [] ∧ full root
  ∧ leaves root ≡ₚ map_to_list (count_frequencies text)
  ∧ positive root
  ∧ ForallOrdPairs ordered (internals root).
Proof.
  intros Hroot.
  assert (text ≠ []) as Ht by (intros ->; by rewrite root_of_empty in Hroot).
  split; [done|].
  destruct (root_of_spec text Ht) as (r & Hr & H).
  rewrite Hroot in Hr. by injection Hr as <-.
Qed.

Lemma table_store text root :
  root_of text = Some root →
  huffmanCodes_of text = foldl store ∅ (code_list root []).
Proof.
  intros Hroot. destruct (root_of_facts _ _ Hroot) as (_ & Hfull & _).
  unfold huffmanCodes_of. rewrite Hroot. simpl.
  by apply generateCodes_at_store.
Qed.

(** The leaf of a character carries its frequency. *)
Lemma leaf_frequency text root p lf :
  root_of text = Some root → walk root p = Some lf → isLeaf lf = true →
  freqMap_of text !! data lf = Some (freq lf).
Proof.
  intros Hroot Hw Hlf.
  destruct (root_of_facts _ _ Hroot) as (_ & Hfull & Hleaves & _).
  apply elem_of_map_to_list. unfold freqMap_of. rewrite <- Hleaves.
  by eapply walk_leaf_elem.
Qed.

Lemma table_lookup text root c cd :
  root_of text = Some root → huffmanCodes_of text !! c = Some cd →
  ∃ p lf, walk root p = Some lf ∧ isLeaf lf = true ∧ data lf = c
          ∧ cd = match p with [] => [bit0] | _ => p end.
Proof.
  intros Hroot Hc. destruct (root_of_facts _ _ Hroot) as (_ & Hfull & _).
  rewrite (table_store _ _ Hroot) in Hc.
  apply foldl_store_lookup in Hc as [Hc|Hc]; [|by rewrite lookup_empty in Hc].
  destruct (code_list_walk root [] c cd Hfull Hc)
    as (p & lf & Hw & Hlf & Hd & Hcd).
  exists p, lf. simpl in Hcd. by destruct p.
Qed.

(** Every character of the text has an entry in the table. *)
Lemma table_defined text c :
  c ∈ text → is_Some (huffmanCodes_of text !! c).
Proof.
  intros Hc.
  assert (text ≠ []) as Ht by (intros ->; by apply elem_of_nil in Hc).
  destruct (root_of_spec text Ht) as (root & Hroot & Hfull & Hleaves & _).
  rewrite (table_store _ _ Hroot). apply foldl_store_is_Some. left.
  rewrite (code_list_keys _ _ Hfull), Hleaves.
  apply count_frequencies_dom in Hc as [f Hf].
  apply list_elem_of_fmap. exists (c, f). split; [done|].
  by apply elem_of_map_to_list.
Qed.

(** With two different characters in the text the root is not a leaf. *)
Lemma root_not_leaf text root a b :
  a ∈ text → b ∈ text → a ≠ b → root_of text = Some root →
  isLeaf root = false.
Proof.
  intros Ha Hb Hab Hroot.
  destruct (root_of_facts _ _ Hroot) as (_ & Hfull & Hleaves & _).
  destruct (isLeaf root) eqn:Hl; [|done]. exfalso.
  rewrite (leaves_of_leaf _ Hl) in Hleaves.
  apply count_frequencies_dom in Ha as [fa Hfa].
  apply count_frequencies_dom in Hb as [fb Hfb].
  apply elem_of_map_to_list in Hfa, Hfb.
  rewrite <- Hleaves in Hfa, Hfb.
  apply list_elem_of_singleton in Hfa, Hfb. congruence.
Qed.

(** When the root is not a leaf, the stored code is the path itself. *)
Lemma table_lookup_path text root c cd :
  root_of text = Some root → isLeaf root = false →
  huffmanCodes_of text !! c = Some cd →
  ∃ lf, walk root cd = Some lf ∧ isLeaf lf = true ∧ data lf = c ∧ cd ≠ [].
Proof.
  intros Hroot Hl Hc.
  destruct (table_lookup _ _ _ _ Hroot Hc) as (p & lf & Hw & Hlf & Hd & ->).
  destruct p as [|b p].
  - simpl in Hw. injection Hw as <-. congruence.
  - by exists lf.
Qed.

Lemma table_decodable text root a b c :
  a ∈ text → b ∈ text → a ≠ b → root_of text = Some root → c ∈ text →
  decodable root (huffmanCodes_of text) c.
Proof.
  intros Ha Hb Hab Hroot Hc.
  pose proof (root_not_leaf _ _ _ _ Ha Hb Hab Hroot) as Hl.
  destruct (table_defined text c Hc) as [cd Hcd].
  destruct (table_lookup_path _ _ _ _ Hroot Hl Hcd) as (lf & Hw & Hlf & Hd & Hne).
  unfold decodable, code_of. rewrite Hcd. simpl. by exists lf.
Qed.

(** The round trip for a text with two different characters. *)
Lemma decode_encode text root a b :
  a ∈ text → b ∈ text → a ≠ b → root_of text = Some root →
  decode root (encodedText_of text) = Some text.
Proof.
  intros Ha Hb Hab Hroot.
  unfold decode, encodedText_of. rewrite encode_bind.
  rewrite (decode_codes root (huffmanCodes_of text) text []);
    [reflexivity|].
  apply Forall_forall. intros c Hc.
  by apply (table_decodable text root a b c).
Qed.
End Table.

(** ** Properties of the program *)

Lemma node_of_full t n : full t → node_of t n → full n.
Proof.
  intros Ht Hn. induction Hn as [t|t l n Hl Hn IH|t r n Hr Hn IH]; [done|..].
  - apply IH. destruct Ht; simpl in Hl; by simplify_eq.
  - apply IH. destruct Ht; simpl in Hr; by simplify_eq.
Qed.

Section Claims.
Context `{Q : !PriorityQueue HuffmanNode Compare} `{I : !MapIteration}.

(** C8: for a frequency map that is not empty the tree builder returns a
    tree, and every node of that tree has either no child, or two children
    whose frequencies add up to the frequency of the node; no node has
    exactly one child. *)
Theorem build_tree_full (m : gmap ascii Z) :
  m ≠ ∅ →
  ∃ root, build_tree m = Some root
          ∧ ∀ n, node_of root n →
                 (left n = None ∧ right n = None)
                 ∨ (∃ l r, left n = Some l ∧ right n = Some r
                           ∧ freq n = freq l + freq r).
Proof.
  intros Hm. destruct (build_tree_shape m Hm) as (root & Hroot & Hfull & _).
  exists root. split; [done|]. intros n Hn.
  destruct (full_cases n (node_of_full _ _ Hfull Hn))
    as [H|(l & r & Hl & Hr & Hf & _)]; [by left|].
  right. by exists l, r.
Qed.

Lemma single_symbol_map text c :
  text ≠ [] → (∀ x, x ∈ text → x = c) →
  ∃ f, count_frequencies text = {[c := f]}.
Proof.
  intros Ht Hall.
  assert (c ∈ text) as Hc.
  { destruct text as [|x text]; [done|]. rewrite (Hall x); left. }
  apply count_frequencies_dom in Hc as [f Hf]. exists f.
  apply map_eq. intros x. rewrite lookup_singleton.
  case_decide as Hx; [by subst|].
  destruct (count_frequencies text !! x) as [g|] eqn:Hg; [|done].
  exfalso. apply Hx. symmetry. apply Hall.
  apply count_frequencies_dom. by exists g.
Qed.

(** The tree of a text with one distinct character is a single leaf. *)
Lemma single_symbol_root text c :
  text ≠ [] → (∀ x, x ∈ text → x = c) →
  ∃ f, root_of text = Some (leaf_node c f).
Proof.
  intros Ht Hall. destruct (single_symbol_map text c Ht Hall) as (f & Hm).
  destruct (root_of_spec text Ht) as (root & Hroot & Hfull & Hleaves & _).
  exists f. rewrite Hroot. f_equal.
  rewrite Hm, map_to_list_singleton in Hleaves.
  apply Permutation_singleton_r in Hleaves.
  by apply full_single_leaf.
Qed.

(** C6: when the text has exactly one distinct character, so that the
    root of the tree is a leaf, the table holds the one-bit code "0" for
    that character, and nothing else. *)
Theorem single_symbol_code text c :
  text ≠ [] → (∀ x, x ∈ text → x = c) →
  huffmanCodes_of text = {[c := [bit0]]}.
Proof.
  intros Ht Hall. destruct (single_symbol_root text c Ht Hall) as (f & Hroot).
  unfold huffmanCodes_of. rewrite Hroot. simpl. apply insert_empty.
Qed.

(** C2: in the table of a text that is not empty every character of the
    text has a code, every code is a non-empty string of the bits "0" and
    "1", and the code of one character is never a prefix of the code of
    another. *)
Theorem codes_prefix_free text :
  text ≠ [] →
  (∀ c, c ∈ text → is_Some (huffmanCodes_of text !! c))
  ∧ (∀ c cd, huffmanCodes_of text !! c = Some cd →
             cd ≠ [] ∧ Forall (λ bit, bit = bit0 ∨ bit = bit1) cd)
  ∧ (∀ a b ca cb,
       a ≠ b →
       huffmanCodes_of text !! a = Some ca →
       huffmanCodes_of text !! b = Some cb →
       ¬ ca `prefix_of` cb).
Proof.
  intros Ht. destruct (root_of_spec text Ht) as (root & Hroot & Hfull & _).
  split; [apply table_defined|]. split.
  - intros c cd Hc. split.
    + destruct (table_lookup _ _ _ _ Hroot Hc) as (p & _ & _ & _ & _ & ->).
      by destruct p.
    + rewrite (table_store _ _ Hroot) in Hc.
      apply foldl_store_lookup in Hc as [Hc|Hc];
        [|by rewrite lookup_empty in Hc].
      by apply (code_list_bits root [] c cd Hfull).
  - intros a b ca cb Hab Ha Hb [k Hk].
    destruct (table_lookup _ _ _ _ Hroot Ha) as (pa & la & Hwa & Hla & Hda & ->).
    destruct (table_lookup _ _ _ _ Hroot Hb) as (pb & lb & Hwb & Hlb & Hdb & ->).
    assert (∀ p lf, walk root [] = Some la → walk root p = Some lf → lf = la)
      as Hleaf.
    { intros p lf [= <-]. destruct p as [|x p]; [by intros [= <-]|].
      by rewrite walk_leaf. }
    apply Hab. rewrite <- Hda, <- Hdb. f_equal.
    destruct pa as [|xa pa].
    + symmetry. by eapply Hleaf.
    + destruct pb as [|xb pb].
      { injection Hwb as <-. by rewrite walk_leaf in Hwa. }
      rewrite Hk, walk_app, Hwa in Hwb. simpl in Hwb.
      destruct k as [|x k]; [by injection Hwb|].
      by rewrite walk_leaf in Hwb.
Qed.

(** C3: of two characters of the table, the one whose frequency is strictly
    greater has a code that is not longer. *)
Theorem heavier_code_not_longer text a b fa fb ca cb :
  freqMap_of text !! a = Some fa →
  freqMap_of text !! b = Some fb →
  huffmanCodes_of text !! a = Some ca →
  huffmanCodes_of text !! b = Some cb →
  fb < fa →
  (length ca ≤ length cb)%nat.
Proof.
  intros Hfa Hfb Ha Hb Hlt.
  assert (text ≠ []) as Ht.
  { intros ->. apply (elem_of_nil a), count_frequencies_dom. by exists fa. }
  destruct (root_of_spec text Ht)
    as (root & Hroot & Hfull & Hleaves & Hpos & Hord).
  destruct (table_lookup _ _ _ _ Hroot Ha) as (pa & la & Hwa & Hla & Hda & ->).
  destruct (table_lookup _ _ _ _ Hroot Hb) as (pb & lb & Hwb & Hlb & Hdb & ->).
  pose proof (leaf_frequency _ _ _ _ Hroot Hwa Hla) as Hqa.
  pose proof (leaf_frequency _ _ _ _ Hroot Hwb Hlb) as Hqb.
  rewrite Hda, Hfa in Hqa. rewrite Hdb, Hfb in Hqb.
  injection Hqa as ->. injection Hqb as ->.
  pose proof (heavier_higher root Hfull Hpos Hord pa pb la lb Hwa Hwb Hlt)
    as Hlen.
  destruct pa as [|xa pa].
  - injection Hwa as <-. destruct pb as [|xb pb]; [done|].
    by rewrite walk_leaf in Hwb.
  - destruct pb as [|xb pb]; [simpl in Hlen; lia|done].
Qed.

(** C1: the round trip fails on a text with one distinct character.  The
    root is then a leaf; the first bit of the encoded text moves the cursor
    to a child that does not exist and the leaf test dereferences the null
    pointer, so that the run ends there and decodes nothing. *)
Theorem single_symbol_run_fails text c :
  text ≠ [] → (∀ x, x ∈ text → x = c) →
  decodedText_of text = None ∧ main text = NullDereference.
Proof.
  intros Ht Hall.
  assert (decodedText_of text = None) as Hdec.
  { destruct (single_symbol_root text c Ht Hall) as (f & Hroot).
    unfold decodedText_of, encodedText_of, huffmanCodes_of.
    rewrite Hroot. simpl. rewrite encode_bind.
    destruct text as [|x text]; [done|].
    rewrite (Hall x) by left. rewrite bind_cons.
    unfold code_of at 1. rewrite lookup_insert_eq. simpl.
    unfold decode. by rewrite decode_from_cons. }
  split; [done|]. unfold main. rewrite Hdec. by destruct text.
Qed.

(** The round trip succeeds on a text with two different characters. *)
Lemma two_symbol_run_succeeds text a b :
  a ∈ text → b ∈ text → a ≠ b → main text = Success.
Proof.
  intros Ha Hb Hab.
  assert (text ≠ []) as Ht by (intros ->; by apply elem_of_nil in Ha).
  destruct (root_of_spec text Ht) as (root & Hroot & _).
  unfold main, decodedText_of. rewrite Hroot. simpl.
  rewrite (decode_encode text root a b Ha Hb Hab Hroot).
  destruct text; [done|]. by rewrite decide_True.
Qed.

(** C7: with a tree that is a single leaf the decoding loop does not write
    one character per bit: on every payload of at least one bit it
    dereferences the null child of the leaf at the first bit. *)
Theorem single_leaf_decode_fails root bit bits :
  isLeaf root = true → decode root (bit :: bits) = None.
Proof.
  intros [Hl Hr]%isLeaf_children. unfold decode.
  rewrite decode_from_cons, decode_step_null; [done|].
  unfold child. by destruct (Ascii.eqb bit bit0).
Qed.

(** C4 as the code has it: the encoded text is the concatenation of the
    codes of the characters of the text, in order, and nothing more; its
    length is the sum of the lengths of these codes. *)
Theorem encoded_text_is_concatenation text :
  encodedText_of text = text ≫= code_of (huffmanCodes_of text)
  ∧ length (encodedText_of text)
    = sum_list ((λ c, length (code_of (huffmanCodes_of text) c)) <$> text).
Proof.
  unfold encodedText_of. rewrite encode_bind. split; [done|].
  generalize (huffmanCodes_of text). intros codes.
  induction text as [|c text' IH]; [done|].
  rewrite bind_cons, length_app, fmap_cons. simpl. by rewrite IH.
Qed.

(** C5 as the code has it: the decoding loop knows no format error.  For a
    text with two different characters, decoding the encoded text without
    its last character ends normally and returns the text without its last
    character. *)
Theorem truncated_payload_decodes text root a b :
  a ∈ text → b ∈ text → a ≠ b → root_of text = Some root →
  decode root (removelast (encodedText_of text)) = Some (removelast text).
Proof.
  intros Ha Hb Hab Hroot.
  assert (text ≠ []) as Ht by (intros ->; by apply elem_of_nil in Ha).
  assert (Forall (decodable root (huffmanCodes_of text)) text) as Hall.
  { apply Forall_forall. intros c Hc.
    by apply (table_decodable text root a b c). }
  unfold encodedText_of. rewrite encode_bind.
  generalize dependent (huffmanCodes_of text). intros codes Hall.
  destruct (exists_last Ht) as (text' & c & ->).
  apply Forall_app in Hall as [Hall' Hc].
  apply Forall_inv in Hc as (lf & Hw & Hlf & Hd & Hne).
  rewrite bind_app, bind_cons.
  change ([] ≫= code_of codes) with (@nil ascii). rewrite app_nil_r.
  destruct (exists_last Hne) as (q & bit & Hq). rewrite Hq in Hw |- *.
  rewrite app_assoc, !removelast_last.
  unfold decode. rewrite decode_from_app, (decode_codes _ _ _ _ Hall').
  simpl.
  destruct (decode_inside root q root text' bit lf Hw) as (n' & _ & ->).
  done.
Qed.

Lemma loop_step_deterministic q q1 q2 :
  loop_step q q1 → loop_step q q2 → q1 = q2.
Proof. destruct 1; inversion 1; congruence. Qed.

Lemma loop_run_deterministic q root1 root2 :
  loop_run q root1 → loop_run q root2 → root1 = root2.
Proof.
  intros H1. revert root2.
  induction H1 as [q root Hsz Htop|q q' root Hstep Hrun IH];
    intros root2 H2.
  - destruct H2 as [q root2 _ Htop2|q q2 root2 Hstep2 _]; [congruence|].
    by destruct Hstep2.
  - destruct H2 as [q root2 Hsz2 _|q q2 root2 Hstep2 Hrun2].
    + by destruct Hstep.
    + apply IH. by rewrite (loop_step_deterministic _ _ _ Hstep Hstep2).
Qed.

(** The loop as a function computes a run of the loop as a relation. *)
Lemma build_loop_run fuel q q' root :
  build_loop fuel q = Some q' → pq_top q' = Some root → loop_run q root.
Proof.
  revert q. induction fuel as [|fuel IH]; intros q; simpl.
  - case_decide; [done|]. intros [= ->] Htop. by constructor.
  - case_decide as Hsz; [|intros [= ->] Htop; by constructor].
    destruct (merge_step_spec q Hsz) as (l & r & Hl & Hr & Hm & _).
    rewrite Hm. simpl. intros Hrun Htop.
    eapply loop_run_iter; [by constructor|by apply IH].
Qed.

Lemma root_of_run text root :
  root_of text = Some root →
  loop_run (initial_queue (freqMap_of text)) root.
Proof.
  unfold root_of, build_tree.
  destruct (build_loop _ _) as [q'|] eqn:Hq'; [|done]. simpl.
  by eapply build_loop_run.
Qed.

Lemma prefix_app_cases (pre l1 l2 : str) :
  pre `prefix_of` l1 ++ l2 →
  pre `prefix_of` l1 ∨ ∃ pre', pre = l1 ++ pre' ∧ pre' `prefix_of` l2.
Proof.
  revert pre. induction l1 as [|x l1 IH]; intros pre; simpl.
  - intros H. right. by exists pre.
  - destruct pre as [|y pre]; [intros _; left; apply prefix_nil|].
    intros H. pose proof (prefix_cons_inv_1 _ _ _ _ H) as ->.
    apply prefix_cons_inv_2 in H.
    destruct (IH _ H) as [H1|(pre' & -> & H2)].
    + left. by apply prefix_cons.
    + right. by exists pre'.
Qed.

Lemma decode_prefix_safe root codes syms :
  Forall (decodable root codes) syms →
  ∀ pre out, pre `prefix_of` syms ≫= code_of codes →
             is_Some (decode_from root (root, out) pre).
Proof.
  induction 1 as [|c syms (lf & Hw & Hlf & Hd & Hne) Hsyms IH];
    intros pre out.
  - intros ->%prefix_nil_inv. done.
  - rewrite bind_cons.
    intros [[k Hk]|(pre' & -> & Hpre')]%prefix_app_cases.
    + destruct k as [|bit k].
      * rewrite app_nil_r in Hk. subst pre.
        by rewrite (decode_code root _ _ _ lf Hw Hlf Hne).
      * rewrite Hk, (cons_middle bit pre k), app_assoc, walk_app in Hw.
        destruct (walk root (pre ++ [bit])) as [n|] eqn:Hn; [|done].
        destruct (decode_inside root pre root out bit n Hn) as (n' & _ & ->).
        done.
    + rewrite decode_from_app, (decode_code root _ _ _ lf Hw Hlf Hne). simpl.
      by apply IH.
Qed.

(** C10: for a text with two different characters, on every string of
    bits that is a concatenation of codes of the table, the decoding loop
    never steps to a null child: after each bit, that is on every prefix
    of the string, the loop has a state with a current node. *)
Theorem decode_cursor_never_null text root a b syms pre :
  a ∈ text → b ∈ text → a ≠ b → root_of text = Some root →
  Forall (λ c, c ∈ text) syms →
  pre `prefix_of` syms ≫= code_of (huffmanCodes_of text) →
  ∃ currentNode decodedText,
    decode_from root (root, []) pre = Some (currentNode, decodedText).
Proof.
  intros Ha Hb Hab Hroot Hsyms Hpre.
  destruct (decode_prefix_safe root (huffmanCodes_of text) syms) with
    (pre := pre) (out := @nil ascii) as [[cur out] Hst]; [|done|by eauto].
  eapply Forall_impl; [exact Hsyms|]. intros c Hc.
  by apply (table_decodable text root a b c).
Qed.
End Claims.

(** ** Further properties: the frequency map and the tree *)

Lemma occurrences_cons c x text :
  occurrences c (x :: text)
  = (if decide (x = c) then 1 else 0) + occurrences c text.
Proof.
  unfold occurrences. rewrite filter_cons.
  case_decide; simpl length; lia.
Qed.

Lemma foldl_count_value text m c :
  default 0 (foldl count_char m text !! c)
  = default 0 (m !! c) + occurrences c text.
Proof.
  revert m. induction text as [|x text IH]; intros m; simpl.
  - unfold occurrences. simpl. lia.
  - rewrite IH, count_char_lookup, occurrences_cons.
    case_decide; subst; simpl; lia.
Qed.

(** X1: after the counting loop the map holds, for every character of the
    text, the number of its occurrences, and no entry for any other
    character. *)
Theorem count_frequencies_occurrences text c :
  count_frequencies text !! c
  = if decide (c ∈ text) then Some (occurrences c text) else None.
Proof.
  pose proof (foldl_count_value text ∅ c) as Hv.
  pose proof (count_frequencies_dom text c) as Hd.
  fold (count_frequencies text) in Hv. rewrite lookup_empty in Hv.
  case_decide as Hc.
  - apply Hd in Hc as [f Hf]. rewrite Hf in Hv |- *. simpl in Hv.
    f_equal. lia.
  - destruct (count_frequencies text !! c) as [f|] eqn:Hf; [|done].
    exfalso. apply Hc, Hd. by exists f.
Qed.

Lemma node_of_walk t n : node_of t n → ∃ p, walk t p = Some n.
Proof.
  induction 1 as [t|t l n Hl Hn [p Hp]|t r n Hr Hn [p Hp]].
  - by exists [].
  - exists (bit0 :: p). simpl. unfold child. simpl. by rewrite Hl.
  - exists (bit1 :: p). simpl. unfold child. simpl. by rewrite Hr.
Qed.

Lemma full_leaves_internals n :
  full n → length (leaves n) = S (length (internals n)).
Proof.
  induction 1 as [d f|d l r Hl IHl Hr IHr]; simpl; [done|].
  rewrite !length_app, IHl, IHr. lia.
Qed.

Section TreeFacts.
Context `{Q : !PriorityQueue HuffmanNode Compare} `{I : !MapIteration}.

(** X13: the tree builder has a root to return exactly for the texts that
    are not empty; on the empty text the queue is empty after the loop and
    [pq.top()] has no value, which is what the test at the start of [main]
    keeps the program away from. *)
Theorem root_of_defined_iff text : is_Some (root_of text) ↔ text ≠ [].
Proof.
  split.
  - intros [root Hroot] ->. by rewrite root_of_empty in Hroot.
  - intros Ht. destruct (root_of_spec text Ht) as (root & Hroot & _).
    by exists root.
Qed.

(** X2: the frequency of the root is the length of the text. *)
Theorem root_freq_is_text_length text root :
  root_of text = Some root → freq root = Z.of_nat (length text).
Proof.
  intros Hroot.
  destruct (root_of_facts _ _ Hroot) as (_ & Hfull & Hleaves & _).
  rewrite (full_freq_total root Hfull), (total_perm _ _ Hleaves).
  apply count_frequencies_total.
Qed.

(** X3: the leaves of the tree are the entries of the frequency map: no
    character is at two leaves, and a character is at a leaf with a
    frequency exactly when the map holds that frequency for it. *)
Theorem tree_leaves_are_entries text root :
  root_of text = Some root →
  NoDup (leaves root).*1
  ∧ ∀ c f, (c, f) ∈ leaves root ↔ freqMap_of text !! c = Some f.
Proof.
  intros Hroot.
  destruct (root_of_facts _ _ Hroot) as (_ & Hfull & Hleaves & _).
  split.
  - rewrite Hleaves. apply NoDup_fst_map_to_list.
  - intros c f. rewrite Hleaves. apply elem_of_map_to_list.
Qed.

(** X4: every node of the tree of a text has a frequency of at least one
    and at most the length of the text; the sums that the merge loop
    computes therefore fit every integer type that can hold that length. *)
Theorem node_freq_bounded text root n :
  root_of text = Some root → node_of root n →
  1 ≤ freq n ≤ Z.of_nat (length text).
Proof.
  intros Hroot [p Hp]%node_of_walk. by eapply freq_bounded.
Qed.

(** X5: the tree of a text has one leaf for each distinct character and one
    node that is not a leaf less than that: the loop has merged that many
    times. *)
Theorem tree_node_count text root :
  root_of text = Some root →
  length (leaves root) = size (freqMap_of text)
  ∧ S (length (internals root)) = size (freqMap_of text).
Proof.
  intros Hroot.
  destruct (root_of_facts _ _ Hroot) as (_ & Hfull & Hleaves & _).
  rewrite <- (full_leaves_internals root Hfull), Hleaves.
  by rewrite length_map_to_list.
Qed.

(** X9: the table has an entry for a character exactly when the character
    occurs in the text; for any other character [huffmanCodes[c]] reads as
    the empty string. *)
Theorem table_domain text c :
  (is_Some (huffmanCodes_of text !! c) ↔ c ∈ text)
  ∧ (c ∉ text → code_of (huffmanCodes_of text) c = []).
Proof.
  assert (is_Some (huffmanCodes_of text !! c) → c ∈ text) as Hin.
  { intros [cd Hcd].
    destruct (root_of text) as [root|] eqn:Hroot.
    - destruct (table_lookup _ _ _ _ Hroot Hcd) as (p & lf & Hw & Hlf & <- & _).
      apply count_frequencies_dom. exists (freq lf).
      by apply (leaf_frequency text root p lf).
    - unfold huffmanCodes_of in Hcd. rewrite Hroot in Hcd. simpl in Hcd.
      by rewrite lookup_empty in Hcd. }
  split; [split; [done|apply table_defined]|].
  intros Hc. unfold code_of.
  destruct (huffmanCodes_of text !! c) as [cd|] eqn:Hcd; [|done].
  exfalso. apply Hc, Hin. by exists cd.
Qed.
End TreeFacts.

(** ** Further properties: encoding and decoding *)

Lemma walk_depth_leaves t p n :
  full t → walk t p = Some n →
  (length p + length (leaves n) ≤ length (leaves t))%nat.
Proof.
  intros Ht. revert p.
  induction Ht as [d f|d l r Hl IHl Hr IHr]; intros p.
  - destruct p as [|b p]; [intros [= <-]; simpl; lia|].
    by rewrite walk_leaf.
  - destruct p as [|b p]; [intros [= <-]; simpl; lia|].
    pose proof (full_leaves_nonempty l Hl).
    pose proof (full_leaves_nonempty r Hr).
    simpl. unfold child; simpl. rewrite length_app.
    destruct (Ascii.eqb b bit0); simpl; intros Hw.
    + specialize (IHl p Hw). destruct (leaves r); simpl; [done|lia].
    + specialize (IHr p Hw). destruct (leaves l); simpl; [done|lia].
Qed.

(** There are 256 characters. *)
Lemma ascii_map_size {A} (m : gmap ascii A) : (size m ≤ 256)%nat.
Proof.
  rewrite <- length_map_to_list, <- (length_fmap fst),
    <- (length_fmap nat_of_ascii).
  assert (length (nat_of_ascii <$> (map_to_list m).*1) ≤ length (seq 0 256))%nat
    as Hle; [|by rewrite length_seq in Hle].
  apply NoDup_incl_length.
  - apply NoDup_ListNoDup, NoDup_fmap_2_strong; [|apply NoDup_fst_map_to_list].
    intros x y _ _ Hxy.
    by rewrite <- (ascii_nat_embedding x), <- (ascii_nat_embedding y), Hxy.
  - intros k Hk. apply list_elem_of_In, list_elem_of_fmap in Hk as (a & -> & _).
    apply in_seq. pose proof (nat_ascii_bounded a). lia.
Qed.

Lemma weighted_length_perm codes L L' :
  L ≡ₚ L' → weighted_length codes L = weighted_length codes L'.
Proof. induction 1; simpl; lia. Qed.

Lemma count_char_weighted codes m c :
  weighted_length codes (map_to_list (count_char m c))
  = weighted_length codes (map_to_list m)
    + Z.of_nat (length (code_of codes c)).
Proof.
  unfold count_char. destruct (m !! c) as [v|] eqn:Hv; simpl.
  - rewrite <- (insert_delete_eq m).
    rewrite (weighted_length_perm _ _ _
               (map_to_list_insert _ c (v + 1) (lookup_delete_eq m c))).
    rewrite <- (weighted_length_perm _ _ _ (map_to_list_delete m c v Hv)).
    simpl. lia.
  - rewrite (weighted_length_perm _ _ _ (map_to_list_insert m c (0 + 1) Hv)).
    simpl. lia.
Qed.

Lemma foldl_count_weighted codes text m :
  weighted_length codes (map_to_list (foldl count_char m text))
  = weighted_length codes (map_to_list m)
    + Z.of_nat (length (text ≫= code_of codes)).
Proof.
  revert m. induction text as [|c text IH]; intros m; [simpl; lia|].
  change (foldl count_char m (c :: text))
    with (foldl count_char (count_char m c) text).
  rewrite IH, count_char_weighted, bind_cons, length_app. lia.
Qed.

(** From a node that is not a leaf, in a full tree whose root is not a leaf,
    the decoding loop reads any string to its end: the cursor stays on a
    node that is not a leaf, and what it writes are characters of leaves,
    at most one for each character read. *)
Lemma decode_from_total root :
  full root → isLeaf root = false →
  ∀ bits cur out p,
    walk root p = Some cur → isLeaf cur = false →
    ∃ cur' emitted,
      decode_from root (cur, out) bits = Some (cur', out ++ emitted)
      ∧ Forall (λ c, c ∈ (leaves root).*1) emitted
      ∧ (length emitted ≤ length bits)%nat.
Proof.
  intros Hfull Hroot. induction bits as [|bit bits IH]; intros cur out p Hw Hcur.
  - exists cur, []. rewrite app_nil_r. split; [done|]. split; [done|]. simpl. lia.
  - pose proof (walk_full _ _ _ Hfull Hw) as Hfc.
    destruct (full_cases cur Hfc) as [[Hl Hr]|(l & r & Hl & Hr & _)].
    { assert (isLeaf cur = true) by (by apply isLeaf_children). congruence. }
    assert (∃ n, child bit cur = Some n) as [n Hn].
    { unfold child. destruct (Ascii.eqb bit bit0); eauto. }
    assert (walk root (p ++ [bit]) = Some n) as Hwn.
    { apply walk_snoc. by exists cur. }
    rewrite decode_from_cons, (decode_step_child _ _ _ _ _ Hn).
    destruct (isLeaf n) eqn:Hleaf; simpl.
    + destruct (IH root (out ++ [data n]) [] eq_refl Hroot)
        as (cur' & emitted & Hdec & Hall & Hlen).
      exists cur', (data n :: emitted).
      rewrite Hdec, <- app_assoc. split; [done|]. split; [|simpl; lia].
      constructor; [|done].
      apply list_elem_of_fmap. exists (data n, freq n). split; [done|].
      by eapply walk_leaf_elem.
    + destruct (IH n out (p ++ [bit]) Hwn Hleaf)
        as (cur' & emitted & Hdec & Hall & Hlen).
      exists cur', emitted. split; [done|]. split; [done|]. simpl. lia.
Qed.

Section Runs.
Context `{Q : !PriorityQueue HuffmanNode Compare} `{I : !MapIteration}.

(** X8: with the tree of a text that has two different characters the
    decoding loop never fails, whatever string it is given (any character
    other than "0" reads as "1"): it returns a text of characters of the
    original text that is not longer than the string. *)
Theorem decode_total text root a b encodedText :
  a ∈ text → b ∈ text → a ≠ b → root_of text = Some root →
  ∃ decodedText,
    decode root encodedText = Some decodedText
    ∧ Forall (λ c, c ∈ text) decodedText
    ∧ (length decodedText ≤ length encodedText)%nat.
Proof.
  intros Ha Hb Hab Hroot.
  destruct (root_of_facts _ _ Hroot) as (_ & Hfull & Hleaves & _).
  pose proof (root_not_leaf _ _ _ _ Ha Hb Hab Hroot) as Hl.
  destruct (decode_from_total root Hfull Hl encodedText root [] [] eq_refl Hl)
    as (cur' & emitted & Hdec & Hall & Hlen).
  exists emitted. unfold decode. rewrite Hdec. split; [done|]. split; [|done].
  eapply Forall_impl; [exact Hall|]. intros c Hc. simpl in Hc.
  rewrite Hleaves in Hc. apply list_elem_of_fmap in Hc as ([c' f] & -> & Hcf).
  apply count_frequencies_dom. exists f. by apply elem_of_map_to_list.
Qed.

(** X7: the table of a text with two different characters is uniquely
    decodable.  Any sequence of characters of the text, not only the text
    itself, is decoded to itself from its encoding, and two different
    sequences never have the same encoding. *)
Theorem codes_uniquely_decodable text root a b syms1 syms2 :
  a ∈ text → b ∈ text → a ≠ b → root_of text = Some root →
  Forall (λ c, c ∈ text) syms1 → Forall (λ c, c ∈ text) syms2 →
  decode root (encode (huffmanCodes_of text) syms1) = Some syms1
  ∧ (encode (huffmanCodes_of text) syms1 = encode (huffmanCodes_of text) syms2
     → syms1 = syms2).
Proof.
  intros Ha Hb Hab Hroot H1 H2.
  assert (∀ syms, Forall (λ c, c ∈ text) syms →
                  decode root (encode (huffmanCodes_of text) syms) = Some syms)
    as Hdec.
  { intros syms Hs. unfold decode. rewrite encode_bind.
    rewrite (decode_codes root (huffmanCodes_of text) syms []); [done|].
    eapply Forall_impl; [exact Hs|]. intros c Hc.
    by apply (table_decodable text root a b c). }
  split; [by apply Hdec|].
  intros Heq. pose proof (Hdec syms1 H1) as Hd1.
  rewrite Heq, (Hdec syms2 H2) in Hd1. congruence.
Qed.

Lemma single_symbol_main text c :
  text ≠ [] → (∀ x, x ∈ text → x = c) → main text = NullDereference.
Proof.
  intros Ht Hall. destruct (single_symbol_root text c Ht Hall) as (f & Hroot).
  assert (decodedText_of text = None) as Hdec.
  { unfold decodedText_of, encodedText_of, huffmanCodes_of.
    rewrite Hroot. simpl. rewrite encode_bind.
    destruct text as [|x text]; [done|].
    rewrite (Hall x) by left. rewrite bind_cons.
    unfold code_of at 1. rewrite lookup_insert_eq. simpl.
    unfold decode. by rewrite decode_from_cons. }
  unfold main. rewrite Hdec. by destruct text.
Qed.

(** X6: what a run of [main] ends with depends only on how many different
    characters the text has: none, and there is nothing to do; one, and the
    decoding loop dereferences a null pointer; two or more, and the decoded
    text equals the text.  The final comparison never finds a difference. *)
Theorem main_outcome text :
  main text ≠ Failure
  ∧ (main text = NothingToDo ↔ text = [])
  ∧ (main text = NullDereference
     ↔ text ≠ [] ∧ ∀ x y, x ∈ text → y ∈ text → x = y)
  ∧ (main text = Success ↔ ∃ a b, a ∈ text ∧ b ∈ text ∧ a ≠ b).
Proof.
  destruct text as [|c rest].
  { simpl. split; [done|]. split; [done|]. split.
    - split; [done|]. by intros [? _].
    - split; [done|]. intros (a & b & Ha & _). by apply elem_of_nil in Ha. }
  destruct (decide (Forall (λ x, x = c) rest)) as [Hall|Hnot].
  - assert (∀ x, x ∈ c :: rest → x = c) as Hc.
    { intros x [->|Hx]%elem_of_cons; [done|].
      by apply (proj1 (Forall_forall _ _) Hall). }
    rewrite (single_symbol_main (c :: rest) c); [|done|done].
    split; [done|]. split; [done|]. split.
    + split; [|done]. intros _. split; [done|].
      intros x y Hx Hy. by rewrite (Hc x Hx), (Hc y Hy).
    + split; [done|]. intros (a & b & Ha & Hb & Hab).
      by rewrite (Hc a Ha), (Hc b Hb) in Hab.
  - apply not_Forall_Exists in Hnot; [|apply _].
    apply Exists_exists in Hnot as (x & Hx & Hxc). simpl in Hxc.
    assert (c ∈ c :: rest) as Hc by left.
    assert (x ∈ c :: rest) as Hx' by (by right).
    rewrite (two_symbol_run_succeeds (c :: rest) x c Hx' Hc Hxc).
    split; [done|]. split; [done|]. split.
    + split; [done|]. intros [_ Hsame]. by specialize (Hsame x c Hx' Hc).
    + split; [|done]. intros _. by exists x, c.
Qed.

Lemma table_code_facts text root c cd :
  root_of text = Some root → huffmanCodes_of text !! c = Some cd →
  cd ≠ [] ∧ Forall (λ bit, bit = bit0 ∨ bit = bit1) cd
  ∧ (length cd ≤ Nat.max 1 (size (freqMap_of text) - 1))%nat.
Proof.
  intros Hroot Hc.
  destruct (root_of_facts _ _ Hroot) as (_ & Hfull & Hleaves & _).
  split; [|split].
  - destruct (table_lookup _ _ _ _ Hroot Hc) as (p & _ & _ & _ & _ & ->).
    by destruct p.
  - rewrite (table_store _ _ Hroot) in Hc.
    apply foldl_store_lookup in Hc as [Hc|Hc];
      [|by rewrite lookup_empty in Hc].
    by apply (code_list_bits root [] c cd Hfull).
  - destruct (table_lookup _ _ _ _ Hroot Hc) as (p & lf & Hw & Hlf & _ & ->).
    pose proof (walk_depth_leaves root p lf Hfull Hw) as Hd.
    rewrite (leaves_of_leaf _ Hlf), Hleaves, length_map_to_list in Hd.
    simpl in Hd. unfold freqMap_of. destruct p; simpl in *; lia.
Qed.

(** X10: a code is never longer than the number of distinct characters of
    the text less one (and one bit when there is a single character), so
    never longer than 255 bits; this bounds the depth of the recursion of
    [generateCodes]. *)
Theorem code_length_bound text c cd :
  huffmanCodes_of text !! c = Some cd →
  (length cd ≤ Nat.max 1 (size (freqMap_of text) - 1))%nat
  ∧ (length cd ≤ 255)%nat.
Proof.
  intros Hc.
  destruct (root_of text) as [root|] eqn:Hroot.
  - destruct (table_code_facts _ _ _ _ Hroot Hc) as (_ & _ & Hlen).
    split; [done|]. pose proof (ascii_map_size (freqMap_of text)). lia.
  - unfold huffmanCodes_of in Hc. rewrite Hroot in Hc. simpl in Hc.
    by rewrite lookup_empty in Hc.
Qed.

(** X11: the length of the encoded text is the sum, over the entries of the
    frequency map, of the frequency of the character times the length of
    its code. *)
Theorem encoded_length_weighted text :
  Z.of_nat (length (encodedText_of text))
  = weighted_length (huffmanCodes_of text) (map_to_list (freqMap_of text)).
Proof.
  unfold encodedText_of, freqMap_of, count_frequencies.
  rewrite encode_bind, foldl_count_weighted, map_to_list_empty. simpl. lia.
Qed.

(** X16: the encoded text holds no character other than "0" and "1"; it has
    at least one bit for every character of the text, and at most as many
    bits for each as there are distinct characters less one (one bit when
    there is a single character). *)
Theorem encoded_text_bits text :
  Forall (λ bit, bit = bit0 ∨ bit = bit1) (encodedText_of text)
  ∧ (length text ≤ length (encodedText_of text))%nat
  ∧ (length (encodedText_of text)
     ≤ length text * Nat.max 1 (size (freqMap_of text) - 1))%nat.
Proof.
  unfold encodedText_of. rewrite encode_bind.
  assert (∀ c, c ∈ text →
            code_of (huffmanCodes_of text) c ≠ []
            ∧ Forall (λ bit, bit = bit0 ∨ bit = bit1)
                (code_of (huffmanCodes_of text) c)
            ∧ (length (code_of (huffmanCodes_of text) c)
               ≤ Nat.max 1 (size (freqMap_of text) - 1))%nat) as Hcode.
  { intros c Hc.
    assert (text ≠ []) as Ht by (intros ->; by apply elem_of_nil in Hc).
    destruct (root_of_spec text Ht) as (root & Hroot & _).
    destruct (table_defined text c Hc) as [cd Hcd].
    unfold code_of. rewrite Hcd. simpl.
    by apply (table_code_facts text root c cd). }
  generalize dependent (huffmanCodes_of text). intros codes.
  generalize (Nat.max 1 (size (freqMap_of text) - 1)). intros k Hcode.
  induction text as [|c text' IH]; [done|].
  rewrite bind_cons, length_app, Forall_app.
  destruct (Hcode c) as (Hne & Hbits & Hlen); [left|].
  destruct IH as (IH1 & IH2 & IH3).
  { intros x Hx. apply Hcode. by right. }
  split; [done|].
  destruct (code_of codes c); [done|]. simpl in *. lia.
Qed.
End Runs.

(** ** Further properties: the comparison, the merge and [generateCodes] *)

(** X15: [Compare] is a strict weak ordering, as [std::priority_queue]
    requires of its comparison: no node is ordered before itself, the order
    is transitive, and so is being ordered neither way. *)
Theorem Compare_strict_weak_order :
  (∀ a, Compare a a = false)
  ∧ (∀ a b c, Compare a b = true → Compare b c = true → Compare a c = true)
  ∧ (∀ a b c,
       Compare a b = false → Compare b a = false →
       Compare b c = false → Compare c b = false →
       Compare a c = false ∧ Compare c a = false).
Proof.
  unfold Compare. split; [|split].
  - intros a. apply Z.ltb_irrefl.
  - intros a b c H1%Z.ltb_lt H2%Z.ltb_lt. apply Z.ltb_lt. lia.
  - intros a b c H1%Z.ltb_ge H2%Z.ltb_ge H3%Z.ltb_ge H4%Z.ltb_ge.
    split; apply Z.ltb_ge; lia.
Qed.

Lemma merged_in_order_invariant : merge_invariant (Forall merged_in_order).
Proof.
  split.
  - intros F F' HF. by rewrite HF.
  - intros l r rest [Hl [Hr Hrest]%Forall_cons]%Forall_cons
      [Hlr _]%Forall_cons _.
    constructor; [|done]. intros n l' r' Hn.
    inversion Hn as [|? ? ? Hleft Hsub|? ? ? Hright Hsub]; subst.
    + simpl. intros [= <-] [= <-]. done.
    + simpl in Hleft. injection Hleft as <-. by apply Hl.
    + simpl in Hright. injection Hright as <-. by apply Hr.
Qed.

Lemma foldl_store_notin l m c :
  c ∉ l.*1 → foldl store m l !! c = m !! c.
Proof.
  revert m. induction l as [|[x y] l IH]; intros m; simpl; [done|].
  intros [Hx Hl]%not_elem_of_cons. rewrite IH by done.
  unfold store; simpl. by rewrite lookup_insert_ne.
Qed.

Lemma foldl_store_in l m c cd :
  c ∈ l.*1 → foldl store m l !! c = Some cd → (c, cd) ∈ l.
Proof.
  revert m. induction l as [|[x y] l IH]; intros m; simpl.
  - intros H. by apply elem_of_nil in H.
  - intros Hc Hcd. destruct (decide (c ∈ l.*1)) as [Hin|Hout].
    + right. by eapply IH.
    + apply elem_of_cons in Hc as [->|Hc]; [|done].
      rewrite (foldl_store_notin _ _ _ Hout) in Hcd.
      unfold store in Hcd; simpl in Hcd. rewrite lookup_insert_eq in Hcd.
      injection Hcd as <-. left.
Qed.

(** X14: a call of [generateCodes] on a full tree, with any code so far and
    any table, leaves the entries of all characters that are not at a leaf
    of the tree as they were, and gives every character at a leaf a
    non-empty code that starts with the code so far. *)
Theorem generateCodes_frame n code huffmanCodes c :
  full n →
  (c ∉ (leaves n).*1 →
   generateCodes (Some n) code huffmanCodes !! c = huffmanCodes !! c)
  ∧ (c ∈ (leaves n).*1 →
     ∃ cd, generateCodes (Some n) code huffmanCodes !! c = Some cd
           ∧ code `prefix_of` cd ∧ cd ≠ []).
Proof.
  intros Hn. simpl. rewrite (generateCodes_at_store n code _ Hn).
  rewrite <- (code_list_keys n code Hn). split.
  - apply foldl_store_notin.
  - intros Hc.
    assert (is_Some (foldl store huffmanCodes (code_list n code) !! c))
      as [cd Hcd] by (apply foldl_store_is_Some; by left).
    exists cd. split; [done|].
    apply (foldl_store_in _ _ _ _ Hc) in Hcd.
    destruct (code_list_walk n code c cd Hn Hcd) as (p & _ & _ & _ & _ & ->).
    destruct code as [|x code]; simpl.
    + split; [apply prefix_nil|]. by destruct p.
    + split; [|done]. by exists p.
Qed.

Section MergeOrder.
Context `{Q : !PriorityQueue HuffmanNode Compare} `{I : !MapIteration}.

(** X12: in the tree that the loop builds from any frequency map, at every
    node with children the left child, which left the queue first, has a
    frequency no greater than the right child, and the node carries the
    character [\0]. *)
Theorem left_child_not_heavier (freqMap : gmap ascii Z) root n l r :
  build_tree freqMap = Some root → node_of root n →
  left n = Some l → right n = Some r →
  freq l ≤ freq r ∧ data n = Ascii.zero.
Proof.
  intros Hroot.
  assert (freqMap ≠ ∅) as Hm.
  { intros ->. by rewrite build_tree_empty in Hroot. }
  destruct (build_tree_spec freqMap Hm) as (root' & Hroot' & Hinv).
  rewrite Hroot in Hroot'. injection Hroot' as <-.
  specialize (Hinv _ merged_in_order_invariant).
  apply Forall_inv in Hinv; [apply Hinv|].
  apply Forall_fmap, Forall_forall. intros [c f] _ k l' r' Hk.
  inversion Hk; subst; simpl in *; done.
Qed.
End MergeOrder.

(** ** Further properties: no tree gives a shorter encoding *)

Lemma assignment_cost_perm A A' :
  A ≡ₚ A' → assignment_cost A = assignment_cost A'.
Proof. induction 1; simpl; lia. Qed.

Lemma kraft_sum_perm H ds ds' : ds ≡ₚ ds' → kraft_sum H ds = kraft_sum H ds'.
Proof. induction 1; simpl; lia. Qed.

Lemma kraft_sum_nonneg H ds : 0 ≤ kraft_sum H ds.
Proof.
  induction ds as [|d ds IH]; simpl; [lia|].
  pose proof (Z.pow_nonneg 2 (Z.of_nat (H - d))). lia.
Qed.

Lemma assignment_cost_nonneg A :
  Forall (λ x, 0 ≤ x.1) A → 0 ≤ assignment_cost A.
Proof. induction 1 as [|[w d] A Hw _ IH]; simpl in *; [lia|nia]. Qed.

Lemma pow2_split (H M d : nat) :
  (d ≤ M)%nat → (M ≤ H)%nat →
  2 ^ Z.of_nat (H - d) = 2 ^ Z.of_nat (H - M) * 2 ^ Z.of_nat (M - d).
Proof.
  intros Hd HM. rewrite <- Z.pow_add_r by lia. f_equal. lia.
Qed.

Lemma kraft_sum_multiple H M ds :
  (M ≤ H)%nat → Forall (λ d, d ≤ M)%nat ds →
  ∃ k, 0 ≤ k ∧ kraft_sum H ds = 2 ^ Z.of_nat (H - M) * k.
Proof.
  intros HM. induction 1 as [|d ds Hd _ (k & Hk & IH)]; simpl.
  - exists 0. lia.
  - exists (2 ^ Z.of_nat (M - d) + k). rewrite IH, (pow2_split H M d) by done.
    pose proof (Z.pow_nonneg 2 (Z.of_nat (M - d))). lia.
Qed.

(** Give the lightest item the greatest depth. *)
Lemma lift_max a da (R : list (Z * nat)) :
  Forall (λ x, a ≤ x.1) R →
  ∃ da' R',
    R'.*1 = R.*1 ∧ da' :: R'.*2 ≡ₚ da :: R.*2
    ∧ Forall (λ x, x.2 ≤ da')%nat R'
    ∧ a * Z.of_nat da' + assignment_cost R'
      ≤ a * Z.of_nat da + assignment_cost R.
Proof.
  induction 1 as [|[w d] R Hw _ (da1 & R1 & Hk & Hp & Hmax & Hcost)].
  - exists da, []. split; [done|]. split; [done|]. split; [done|]. lia.
  - simpl in Hw. destruct (decide (d ≤ da1)%nat) as [Hle|Hgt].
    + exists da1, ((w, d) :: R1). rewrite !fmap_cons. cbn [fst snd].
      split; [by rewrite Hk|]. split.
      { rewrite (perm_swap d da1), Hp. apply perm_swap. }
      split; [by constructor|]. simpl. lia.
    + exists d, ((w, da1) :: R1). rewrite !fmap_cons. cbn [fst snd].
      split; [by rewrite Hk|]. split.
      { rewrite Hp. apply perm_swap. }
      split.
      { constructor; [simpl; lia|]. eapply Forall_impl; [exact Hmax|].
        intros x Hx. simpl in Hx. lia. }
      simpl. nia.
Qed.

Lemma merge_assignment a b (rest : list Z) H (A : list (Z * nat)) :
  A.*1 ≡ₚ a :: b :: rest →
  0 ≤ a → a ≤ b → Forall (λ w, b ≤ w) rest →
  Forall (λ x, x.2 ≤ H)%nat A →
  kraft_sum H A.*2 ≤ 2 ^ Z.of_nat H →
  ∃ A', A'.*1 ≡ₚ (a + b) :: rest
        ∧ Forall (λ x, x.2 ≤ H)%nat A'
        ∧ kraft_sum H A'.*2 ≤ 2 ^ Z.of_nat H
        ∧ assignment_cost A' + a + b ≤ assignment_cost A.
Proof.
  intros HA Ha Hab Hrest Hbound Hkraft.
  symmetry in HA. apply Permutation_map_inv in HA as (A3 & HA3 & Hperm).
  destruct A3 as [|[a' da] [|[b' db] R]]; try done.
  simpl in HA3. injection HA3 as <- <- ->.
  change (map fst R) with (R.*1) in *.
  rewrite Hperm in Hbound.
  rewrite (kraft_sum_perm H _ _ (fmap_Permutation snd _ _ Hperm)) in Hkraft.
  rewrite (assignment_cost_perm _ _ Hperm).
  clear A Hperm.
  pose proof (proj1 (Forall_fmap _ _ _) Hrest) as HrestR.
  pose proof (proj2 (Forall_fmap snd (λ d, d ≤ H)%nat _) Hbound) as HboundD.
  (* the lightest item goes to the greatest depth *)
  destruct (lift_max a da ((b, db) :: R)) as (M1 & R1 & Hk1 & Hp1 & Hm1 & Hc1).
  { constructor; [done|].
    eapply Forall_impl; [exact HrestR|]. intros x Hx. simpl in *. lia. }
  destruct R1 as [|[b1 db1] R1]; [done|].
  rewrite ?fmap_cons in Hk1. rewrite ?fmap_cons in Hp1. cbn [fst snd] in Hk1, Hp1.
  injection Hk1 as -> Hk1.
  apply Forall_cons in Hm1 as [Hdb1 Hm1]. cbn [snd] in Hdb1.
  (* the second lightest to the greatest depth that is left *)
  destruct (lift_max b db1 R1) as (M2 & R2 & Hk2 & Hp2 & Hm2 & Hc2).
  { apply (proj1 (Forall_fmap fst (λ w, b ≤ w) _)). by rewrite Hk1. }
  assert (M1 :: M2 :: R2.*2 ≡ₚ da :: db :: R.*2) as Hdepths.
  { rewrite Hp2. exact Hp1. }
  assert (Forall (λ d, d ≤ H)%nat (M1 :: M2 :: R2.*2)) as HboundH.
  { rewrite Hdepths. exact HboundD. }
  assert (M2 ≤ M1)%nat as HM.
  { assert (M2 ∈ db1 :: R1.*2) as Hin by (rewrite <- Hp2; left).
    apply elem_of_cons in Hin as [->|Hin]; [done|].
    apply list_elem_of_fmap in Hin as (x & -> & Hx).
    by apply (proj1 (Forall_forall _ _) Hm1 x). }
  apply Forall_cons in HboundH as [HM1 [HM2 HR2]%Forall_cons].
  rewrite ?fmap_cons in Hkraft. cbn [snd] in Hkraft.
  rewrite <- (kraft_sum_perm H _ _ Hdepths) in Hkraft. simpl in Hkraft.
  destruct (kraft_sum_multiple H M2 R2.*2) as (k & Hk & HK); [done| |].
  { apply (proj2 (Forall_fmap snd (λ d, d ≤ M2)%nat _)). exact Hm2. }
  rewrite HK in Hkraft.
  pose proof (Z.pow_pos_nonneg 2 (Z.of_nat (H - M1)) ltac:(lia) ltac:(lia)) as Hv.
  pose proof (Z.pow_pos_nonneg 2 (Z.of_nat (H - M2)) ltac:(lia) ltac:(lia)) as Hu.
  pose proof (pow2_split H M2 0 ltac:(lia) HM2) as HH.
  rewrite !Nat.sub_0_r in HH.
  assert (1 ≤ M2)%nat as Hpos.
  { destruct M2 as [|M2]; [|lia]. rewrite !Nat.sub_0_r in *. lia. }
  exists ((a + b, (M2 - 1)%nat) :: R2).
  rewrite !fmap_cons. cbn [fst snd].
  split; [by rewrite Hk2, Hk1|].
  split.
  { constructor; [simpl; lia|].
    apply (proj1 (Forall_fmap snd (λ d, d ≤ H)%nat _)). exact HR2. }
  split.
  - simpl. rewrite HK.
    replace (Z.of_nat (H - (M2 - 1))) with (Z.succ (Z.of_nat (H - M2))) by lia.
    rewrite Z.pow_succ_r by lia.
    set (u := 2 ^ Z.of_nat (H - M2)) in *.
    set (P := 2 ^ Z.of_nat M2) in *.
    rewrite HH in Hkraft |- *.
    assert (1 + k < P) by nia. nia.
  - simpl in *. nia.
Qed.

Lemma assignment_cost_app A1 A2 :
  assignment_cost (A1 ++ A2) = assignment_cost A1 + assignment_cost A2.
Proof. induction A1 as [|x A1 IH]; simpl; lia. Qed.

Lemma kraft_sum_app H ds1 ds2 :
  kraft_sum H (ds1 ++ ds2) = kraft_sum H ds1 + kraft_sum H ds2.
Proof. induction ds1 as [|x ds1 IH]; simpl; lia. Qed.

Lemma sum_freq_app L1 L2 : sum_freq (L1 ++ L2) = sum_freq L1 + sum_freq L2.
Proof. induction L1 as [|x L1 IH]; simpl; lia. Qed.

Lemma sum_freq_perm L L' : L ≡ₚ L' → sum_freq L = sum_freq L'.
Proof. induction 1; simpl; lia. Qed.

Lemma weighted_length_app codes L1 L2 :
  weighted_length codes (L1 ++ L2)
  = weighted_length codes L1 + weighted_length codes L2.
Proof. induction L1 as [|x L1 IH]; simpl; lia. Qed.

(** Below the root the cost of a full tree is its frequency times its depth
    plus the frequencies of its nodes that are not leaves. *)
Lemma code_cost_inner t d :
  full t → (1 ≤ d)%nat →
  code_cost t d = Z.of_nat d * freq t + inner_weight t.
Proof.
  intros Ht. revert d.
  induction Ht as [c f|c l r Hl IHl Hr IHr]; intros d Hd.
  - simpl. rewrite Nat.max_r by done. unfold inner_weight. simpl. lia.
  - simpl. rewrite IHl, IHr by lia.
    unfold inner_weight. simpl. rewrite sum_freq_app.
    fold (inner_weight l) (inner_weight r). lia.
Qed.

Lemma code_cost_root t :
  full t → isLeaf t = false → code_cost t 0 = inner_weight t.
Proof.
  intros [c f|c l r Hl Hr]; [done|]. intros _.
  simpl. rewrite !code_cost_inner by (done || lia).
  unfold inner_weight. simpl. rewrite sum_freq_app.
  fold (inner_weight l) (inner_weight r). lia.
Qed.

Lemma leaf_depths_weights t d : full t → (leaf_depths t d).*1 = (leaves t).*2.
Proof.
  intros Ht. revert d.
  induction Ht as [c f|c l r Hl IHl Hr IHr]; intros d; simpl; [done|].
  by rewrite !fmap_app, IHl, IHr.
Qed.

Lemma leaf_depths_cost t d :
  full t → (1 ≤ d)%nat ∨ isLeaf t = false →
  code_cost t d = assignment_cost (leaf_depths t d).
Proof.
  intros Ht. revert d.
  induction Ht as [c f|c l r Hl IHl Hr IHr]; intros d Hd.
  - destruct Hd as [Hd|Hd]; [|done]. simpl. rewrite Nat.max_r by done. lia.
  - simpl. rewrite assignment_cost_app, IHl, IHr by (left; lia). done.
Qed.

Lemma leaf_depths_ge t d :
  full t → leaf_depths t d ≠ [] ∧ Forall (λ x, d ≤ x.2)%nat (leaf_depths t d).
Proof.
  intros Ht. revert d.
  induction Ht as [c f|c l r Hl IHl Hr IHr]; intros d; simpl.
  - split; [done|]. by constructor.
  - destruct (IHl (S d)) as [Hnl Hgl]. destruct (IHr (S d)) as [Hnr Hgr].
    split; [by destruct (leaf_depths l (S d))|].
    apply Forall_app. split; (eapply Forall_impl; [eassumption|]);
      intros x Hx; simpl in Hx; lia.
Qed.

(** The leaves of a full tree fill Kraft's inequality exactly. *)
Lemma leaf_depths_kraft H t d :
  full t → Forall (λ x, x.2 ≤ H)%nat (leaf_depths t d) →
  kraft_sum H (leaf_depths t d).*2 = 2 ^ Z.of_nat (H - d).
Proof.
  intros Ht. revert d.
  induction Ht as [c f|c l r Hl IHl Hr IHr]; intros d; simpl.
  - intros _. lia.
  - intros [HHl HHr]%Forall_app.
    rewrite fmap_app, kraft_sum_app, IHl, IHr by done.
    destruct (leaf_depths_ge l (S d) Hl) as [Hne Hge].
    destruct (leaf_depths l (S d)) as [|x L]; [done|].
    apply Forall_inv in HHl. apply Forall_inv in Hge.
    replace (Z.of_nat (H - d)) with (Z.succ (Z.of_nat (H - S d))) by lia.
    rewrite Z.pow_succ_r by lia. lia.
Qed.

Lemma foldl_store_nodup l m c cd :
  NoDup l.*1 → (c, cd) ∈ l → foldl store m l !! c = Some cd.
Proof.
  revert m. induction l as [|[x y] l IH]; intros m; simpl.
  - intros _ H. by apply elem_of_nil in H.
  - intros [Hx Hl]%NoDup_cons [[= -> ->]|Hin]%elem_of_cons.
    + rewrite (foldl_store_notin _ _ _ Hx). unfold store; simpl.
      by rewrite lookup_insert_eq.
    + by apply IH.
Qed.

Lemma table_weighted n code codes :
  full n →
  (∀ c cd, (c, cd) ∈ code_list n code → codes !! c = Some cd) →
  weighted_length codes (leaves n) = code_cost n (length code).
Proof.
  intros Hn. revert code.
  induction Hn as [c f|c l r Hl IHl Hr IHr]; intros code Hcodes.
  - simpl. unfold code_of. rewrite (Hcodes c _ ltac:(simpl; left)). simpl.
    destruct code; simpl; lia.
  - simpl in *. rewrite weighted_length_app.
    rewrite (IHl (code ++ [bit0])), (IHr (code ++ [bit1])).
    + rewrite !length_app. simpl. by rewrite !Nat.add_1_r.
    + intros c' cd Hin. apply Hcodes, elem_of_app. by right.
    + intros c' cd Hin. apply Hcodes, elem_of_app. by left.
Qed.

(** The length of the encoding of a text with the codes of a full tree
    whose leaves are the entries of its frequency map is the cost of the
    tree. *)
Lemma encode_length_cost t text :
  full t → leaves t ≡ₚ map_to_list (count_frequencies text) →
  Z.of_nat (length (encode (generateCodes (Some t) [] ∅) text))
  = code_cost t 0.
Proof.
  intros Ht Hleaves. rewrite encode_bind.
  pose proof (foldl_count_weighted (generateCodes (Some t) [] ∅) text ∅) as Hw.
  rewrite map_to_list_empty in Hw. simpl in Hw.
  fold (count_frequencies text) in Hw.
  rewrite <- (weighted_length_perm _ _ _ Hleaves) in Hw.
  rewrite (table_weighted t [] _ Ht) in Hw; [simpl in Hw |- *; lia|].
  intros c cd Hin. simpl. rewrite (generateCodes_at_store t [] _ Ht).
  apply foldl_store_nodup; [|done].
  rewrite (code_list_keys _ _ Ht), Hleaves. apply NoDup_fst_map_to_list.
Qed.

(** The balanced tree over a list that is not longer than [2 ^ d] is full,
    has the list at its leaves and no leaf deeper than [d]. *)
Lemma balance_spec d : ∀ x L depth,
  (S (length L) ≤ 2 ^ d)%nat →
  full (balance d x L)
  ∧ leaves (balance d x L) = x :: L
  ∧ Forall (λ y, y.2 ≤ depth + d)%nat (leaf_depths (balance d x L) depth).
Proof.
  induction d as [|d IH]; intros [c f] L depth Hlen.
  - simpl in Hlen. destruct L; [|simpl in Hlen; lia].
    simpl. split; [constructor|]. split; [done|].
    constructor; [simpl; lia|done].
  - destruct L as [|y L].
    { simpl. split; [constructor|]. split; [done|].
      constructor; [simpl; lia|done]. }
    cbn [balance].
    set (j := (length (y :: L) / 2)%nat).
    assert (length (y :: L) = S (length L)) as Hn by done.
    assert (j < length (y :: L))%nat as Hj.
    { unfold j. apply Nat.div_lt; lia. }
    destruct (drop j (y :: L)) as [|z R] eqn:Hdrop.
    { apply (f_equal length) in Hdrop. rewrite length_drop in Hdrop.
      change (length (@nil (ascii * Z))) with 0%nat in Hdrop. lia. }
    assert (length (take j (y :: L)) = j) as Htake.
    { rewrite length_take. lia. }
    assert (S (length R) = length (y :: L) - j)%nat as HR.
    { rewrite <- length_drop, Hdrop. done. }
    assert (2 * j ≤ length (y :: L) ∧ length (y :: L) ≤ 2 * j + 1)%nat
      as [Hj1 Hj2].
    { unfold j. pose proof (Nat.div_mod_eq (length (y :: L)) 2).
      pose proof (Nat.mod_upper_bound (length (y :: L)) 2). lia. }
    rewrite Nat.pow_succ_r' in Hlen.
    destruct (IH (c, f) (take j (y :: L)) (S depth)) as (Hf1 & Hl1 & Hd1);
      [lia|].
    destruct (IH z R (S depth)) as (Hf2 & Hl2 & Hd2); [lia|].
    split; [by constructor|]. split.
    + simpl. cbn [leaves] in Hl1, Hl2.
      change (leaves (balance d (c, f) (take j (y :: L)))
              ++ leaves (balance d z R) = (c, f) :: y :: L).
      rewrite Hl1, Hl2, <- Hdrop. simpl. by rewrite take_drop.
    + change (Forall (λ y0, (y0.2 ≤ depth + S d)%nat)
                (leaf_depths (balance d (c, f) (take j (y :: L))) (S depth)
                 ++ leaf_depths (balance d z R) (S depth))).
      apply Forall_app. split; (eapply Forall_impl; [eassumption|]);
        intros w Hw; simpl in Hw; lia.
Qed.

(** A full tree with no leaf deeper than [d] costs at most [d] bits for
    each occurrence of a character. *)
Lemma code_cost_bound t d depth :
  full t → (1 ≤ d)%nat →
  Forall (λ y : ascii * Z, 0 ≤ y.2) (leaves t) →
  Forall (λ y, y.2 ≤ d)%nat (leaf_depths t depth) →
  code_cost t depth ≤ Z.of_nat d * total (leaves t).
Proof.
  intros Ht Hd. revert depth.
  induction Ht as [c f|c l r Hl IHl Hr IHr]; intros depth; simpl.
  - intros Hf%Forall_inv Hdep%Forall_inv. simpl in *. nia.
  - intros [Hpl Hpr]%Forall_app [Hdl Hdr]%Forall_app.
    rewrite total_app.
    specialize (IHl (S depth) Hpl Hdl). specialize (IHr (S depth) Hpr Hdr).
    lia.
Qed.

Section Optimal.
Context `{Q : !PriorityQueue HuffmanNode Compare} `{I : !MapIteration}.

(** What the loop still adds to the frequencies of the inner nodes is no
    more than the cost of any assignment of depths to the trees of the
    queue that satisfies Kraft's inequality. *)
Lemma build_loop_optimal fuel : ∀ (q q' : pq) root,
  build_loop fuel q = Some q' → pq_top q' = Some root →
  Forall (λ t, 0 ≤ freq t) (contents q) →
  ∀ H A, A.*1 ≡ₚ freq <$> contents q →
         Forall (λ x, x.2 ≤ H)%nat A →
         kraft_sum H A.*2 ≤ 2 ^ Z.of_nat H →
         inner_weight root - forest_inner (contents q) ≤ assignment_cost A.
Proof.
  assert (∀ (q : pq) root (A : list (Z * nat)),
            ¬ (1 < pq_size q)%nat → pq_top q = Some root →
            Forall (λ t, 0 ≤ freq t) (contents q) →
            A.*1 ≡ₚ freq <$> contents q →
            inner_weight root - forest_inner (contents q) ≤ assignment_cost A)
    as Hexit.
  { intros q root A Hsz Htop Hpos HA.
    assert (contents q ≠ []) as Hne.
    { intros He. by rewrite (pq_top_empty _ He) in Htop. }
    destruct (pq_top_pop q Hne) as (x & Hx & Hp & _).
    rewrite Htop in Hx. injection Hx as <-.
    rewrite pq_size_contents, Hp in Hsz. simpl in Hsz.
    destruct (contents (pq_pop q)) as [|y l]; [|simpl in Hsz; lia].
    unfold forest_inner. rewrite (sum_freq_perm _ _ (bind_Permutation _ _ _ Hp)).
    simpl. rewrite app_nil_r. fold (inner_weight root).
    assert (0 ≤ assignment_cost A); [|lia].
    apply assignment_cost_nonneg.
    apply (proj1 (Forall_fmap fst (λ w, 0 ≤ w) A)). rewrite HA.
    by apply Forall_fmap. }
  induction fuel as [|fuel IH]; intros q q' root; simpl.
  - case_decide as Hsz; [done|]. intros [= ->] Htop Hpos H A HA _ _.
    by eapply Hexit.
  - case_decide as Hsz; [|intros [= ->] Htop Hpos H A HA _ _; by eapply Hexit].
    destruct (merge_step_spec q Hsz) as (l & r & _ & _ & Hm & Hc & Hl & Hr).
    rewrite Hm. simpl. intros Hrun Htop Hpos H A HA Hbound Hkraft.
    rewrite Hc in Hpos, HA.
    apply Forall_cons in Hpos as [Hl0 [Hr0 Hrest0]%Forall_cons].
    apply Forall_cons in Hl as [Hlr Hl].
    destruct (merge_assignment (freq l) (freq r)
                (freq <$> contents (pq_pop (pq_pop q))) H A)
      as (A' & HA' & Hbound' & Hkraft' & Hcost); [done|done|done| |done|done|].
    { by apply Forall_fmap. }
    pose proof (contents_push (internal_node l r) (pq_pop (pq_pop q))) as Hpush.
    specialize (IH _ _ _ Hrun Htop).
    assert (inner_weight root
            - forest_inner (contents (pq_push (internal_node l r)
                                        (pq_pop (pq_pop q))))
            ≤ assignment_cost A') as Hstep.
    { apply (IH ltac:(rewrite Hpush; constructor; [simpl; lia|done]) H A');
        [|done|done].
      rewrite HA', Hpush. done. }
    unfold forest_inner in *.
    rewrite (sum_freq_perm _ _ (bind_Permutation _ _ _ Hpush)) in Hstep.
    rewrite (sum_freq_perm _ _ (bind_Permutation _ _ _ Hc)).
    simpl in Hstep |- *. rewrite !sum_freq_app in Hstep |- *. lia.
Qed.

(** The tree the program builds costs no more than any full tree with the
    same leaves. *)
Lemma cost_minimal text root other :
  root_of text = Some root →
  full other → leaves other ≡ₚ leaves root →
  code_cost root 0 ≤ code_cost other 0.
Proof.
  intros Hroot Hother Hsame.
  destruct (root_of_facts _ _ Hroot) as (_ & Hfull & Hleaves & Hpos & _).
  destruct (isLeaf root) eqn:Hl.
  { rewrite (leaves_of_leaf _ Hl) in Hsame.
    apply Permutation_singleton_r in Hsame.
    rewrite (full_single_leaf other _ _ Hother Hsame).
    rewrite (full_single_leaf root (data root) (freq root) Hfull
               (leaves_of_leaf _ Hl)). done. }
  assert (isLeaf other = false) as Hlo.
  { destruct (isLeaf other) eqn:Hlo; [|done].
    rewrite (leaves_of_leaf _ Hlo) in Hsame. symmetry in Hsame.
    apply Permutation_singleton_r in Hsame.
    rewrite (full_single_leaf root _ _ Hfull Hsame) in Hl. done. }
  rewrite (code_cost_root root Hfull Hl).
  rewrite (leaf_depths_cost other 0 Hother (or_intror Hlo)).
  unfold root_of, build_tree in Hroot.
  destruct (build_loop _ _) as [q'|] eqn:Hq'; [|done]. simpl in Hroot.
  pose proof (initial_contents (freqMap_of text)) as Hinit.
  assert (forest_inner (contents (initial_queue (freqMap_of text))) = 0) as H0.
  { unfold forest_inner.
    rewrite (sum_freq_perm _ _ (bind_Permutation _ _ _ Hinit)).
    generalize (map_to_list (freqMap_of text)). intros L.
    induction L as [|x L IH]; [done|]. simpl. exact IH. }
  set (H := max_list (leaf_depths other 0).*2).
  pose proof (build_loop_optimal _ _ _ _ Hq' Hroot) as Hopt.
  rewrite H0 in Hopt.
  assert (inner_weight root - 0 ≤ assignment_cost (leaf_depths other 0));
    [|lia].
  assert (Forall (λ x, x.2 ≤ H)%nat (leaf_depths other 0)) as Hbound.
  { apply Forall_forall. intros x Hx. apply max_list_elem_of_le.
    apply list_elem_of_fmap. by exists x. }
  assert (Forall (λ t, 0 ≤ freq t)
            (contents (initial_queue (freqMap_of text)))) as Hnonneg.
  { rewrite Hinit. apply Forall_fmap, Forall_forall. intros [c f] Hx.
    apply elem_of_map_to_list in Hx. simpl.
    pose proof (count_frequencies_pos text c f Hx). lia. }
  apply (Hopt Hnonneg H); [|done|].
  - rewrite (leaf_depths_weights _ _ Hother), Hsame, Hleaves, Hinit.
    rewrite <- list_fmap_compose. done.
  - rewrite (leaf_depths_kraft H other 0 Hother Hbound).
    rewrite Nat.sub_0_r. lia.
Qed.

Lemma encodedText_cost text root :
  root_of text = Some root →
  Z.of_nat (length (encodedText_of text)) = code_cost root 0.
Proof.
  intros Hroot.
  destruct (root_of_facts _ _ Hroot) as (_ & Hfull & Hleaves & _).
  unfold encodedText_of, huffmanCodes_of. rewrite Hroot.
  by apply encode_length_cost.
Qed.

(** X17: no full tree over the characters of the text gives a shorter
    encoding than the tree the program builds: for every full tree whose
    leaves are the entries of the frequency map, the text encoded with the
    codes that [generateCodes] derives from that tree is at least as long
    as the encoded text of the program. *)
Theorem huffman_encoding_shortest text root other :
  root_of text = Some root →
  full other → leaves other ≡ₚ leaves root →
  (length (encodedText_of text)
   ≤ length (encode (generateCodes (Some other) [] ∅) text))%nat.
Proof.
  intros Hroot Hother Hsame.
  destruct (root_of_facts _ _ Hroot) as (_ & _ & Hleaves & _).
  pose proof (encodedText_cost text root Hroot) as Hr.
  pose proof (encode_length_cost other text Hother
                ltac:(by rewrite Hsame)) as Ho.
  pose proof (cost_minimal text root other Hroot Hother Hsame). lia.
Qed.

(** X18: the encoded text is never longer than a code of fixed length
    would make it: it has at most [d] bits for each character of the text
    whenever [2 ^ d] is at least the number of distinct characters, and so
    never more than eight bits for each character. *)
Theorem encoded_no_longer_than_fixed text :
  (length (encodedText_of text) ≤ 8 * length text)%nat
  ∧ ∀ d, (1 ≤ d)%nat → (size (freqMap_of text) ≤ 2 ^ d)%nat →
         (length (encodedText_of text) ≤ d * length text)%nat.
Proof.
  assert (∀ d, (1 ≤ d)%nat → (size (freqMap_of text) ≤ 2 ^ d)%nat →
               (length (encodedText_of text) ≤ d * length text)%nat) as Hd.
  { intros d Hd Hsize.
    destruct text as [|c0 text0]; [simpl; lia|].
    set (text := c0 :: text0) in *.
    destruct (root_of_spec text) as (root & Hroot & Hfull & Hleaves & _);
      [done|].
    pose proof (full_leaves_nonempty root Hfull) as Hne.
    destruct (leaves root) as [|x L] eqn:HL; [done|].
    assert (S (length L) ≤ 2 ^ d)%nat as Hlen.
    { change (length (x :: L) ≤ 2 ^ d)%nat.
      by rewrite Hleaves, length_map_to_list. }
    destruct (balance_spec d x L 0 Hlen) as (Hbf & Hbl & Hbd).
    pose proof (cost_minimal text root (balance d x L) Hroot Hbf
                  ltac:(by rewrite Hbl, HL)) as Hmin.
    pose proof (encodedText_cost text root Hroot) as Hr.
    assert (code_cost (balance d x L) 0
            ≤ Z.of_nat d * Z.of_nat (length text)); [|nia].
    rewrite <- (count_frequencies_total text), <- (total_perm _ _ Hleaves).
    assert (Forall (λ y : ascii * Z, 0 ≤ y.2) (x :: L)) as Hpos.
    { rewrite Hleaves. apply Forall_forall. intros [c f] Hx.
      apply elem_of_map_to_list in Hx. simpl.
      pose proof (count_frequencies_pos text c f Hx). lia. }
    rewrite <- Hbl in Hpos |- *.
    apply (code_cost_bound (balance d x L) d 0 Hbf Hd); [done|].
    eapply Forall_impl; [exact Hbd|]. intros y Hy. simpl in Hy. lia. }
  split; [|done].
  apply Hd; [lia|]. apply ascii_map_size.
Qed.
End Optimal.

(** ** Two runs on one frequency mapping

    Two texts with the same frequency mapping fill the map in different
    orders, and so may hand the leaves to the queue in different orders; the
    two trees may then give a character codes of different lengths.  Both
    trees are optimal for the mapping, so the two encoded texts have the same
    length. *)

Lemma encoded_length_le
    (Q1 Q2 : PriorityQueue HuffmanNode Compare) (I1 I2 : MapIteration)
    (text1 text2 : str) :
  count_frequencies text1 = count_frequencies text2 →
  (length (encodedText_of (Q := Q1) (I := I1) text1)
   ≤ length (encodedText_of (Q := Q2) (I := I2) text2))%nat.
Proof.
  intros Hsame.
  destruct text1 as [|c1 text1]; [simpl; lia|].
  assert (text2 ≠ []) as Hne2.
  { intros ->. by apply (count_frequencies_nonempty (c1 :: text1)). }
  destruct (root_of_spec (Q := Q1) (I := I1) (c1 :: text1))
    as (root1 & Hroot1 & _ & Hleaves1 & _); [done|].
  destruct (root_of_spec (Q := Q2) (I := I2) text2 Hne2)
    as (root2 & Hroot2 & Hfull2 & Hleaves2 & _).
  pose proof (cost_minimal _ root1 root2 Hroot1 Hfull2
                ltac:(by rewrite Hleaves1, Hleaves2, Hsame)) as Hmin.
  pose proof (encodedText_cost _ _ Hroot1).
  pose proof (encodedText_cost _ _ Hroot2). lia.
Qed.

(** C9, as the program has it: two runs on the same text with the same
    queue and the same order of the map give the same encoded text, bit for
    bit.  Two runs on texts with the same frequency mapping give encoded
    texts of the same length -- the sum over the characters of frequency
    times code length -- whatever queue each run uses and in whatever order
    each run iterates its map; the lengths of the codes of a single
    character need not agree. *)
Theorem same_frequencies_same_encoded_length
    (Q1 Q2 : PriorityQueue HuffmanNode Compare) (I1 I2 : MapIteration)
    (text1 text2 : str) :
  count_frequencies text1 = count_frequencies text2 →
  length (encodedText_of (Q := Q1) (I := I1) text1)
  = length (encodedText_of (Q := Q2) (I := I2) text2)
  ∧ (Q1 = Q2 → I1 = I2 → text1 = text2 →
     encodedText_of (Q := Q1) (I := I1) text1
     = encodedText_of (Q := Q2) (I := I2) text2).
Proof.
  intros Hsame. split; [|by intros -> -> ->].
  pose proof (encoded_length_le Q1 Q2 I1 I2 text1 text2 Hsame).
  pose proof (encoded_length_le Q2 Q1 I2 I1 text2 text1 (eq_sym Hsame)).
  lia.
Qed.

(** ** Concrete runs

    The theorems above at particular texts, run with [selection_queue] and
    [trie_order], and the statements of the specification that fail. *)

Ltac run := vm_compute; reflexivity.

Ltac only_char :=
  let x := fresh "x" in
  let Hx := fresh "Hx" in
  intros x Hx; apply list_elem_of_In in Hx; vm_compute in Hx;
  repeat (destruct Hx as [Hx|Hx]; [by symmetry|]); by destruct Hx.

Lemma build_tree_full_witness :
  ∃ root, build_tree (count_frequencies (text_of "abb")) = Some root
          ∧ ∀ n, node_of root n →
                 (left n = None ∧ right n = None)
                 ∨ (∃ l r, left n = Some l ∧ right n = Some r
                           ∧ freq n = freq l + freq r).
Proof.
  apply (build_tree_full (count_frequencies (text_of "abb"))).
  by vm_compute.
Defined.

Lemma single_symbol_code_witness :
  huffmanCodes_of (text_of "aaaa") = {["a"%char := [bit0]]}.
Proof.
  apply (single_symbol_code (text_of "aaaa") "a"%char); [by vm_compute|].
  only_char.
Defined.

Lemma codes_prefix_free_witness :
  text_of "huffman coding is simple" ≠ []
  ∧ ∀ a b ca cb,
      a ≠ b →
      huffmanCodes_of (text_of "huffman coding is simple") !! a = Some ca →
      huffmanCodes_of (text_of "huffman coding is simple") !! b = Some cb →
      ¬ ca `prefix_of` cb.
Proof.
  assert (text_of "huffman coding is simple" ≠ []) as H by (by vm_compute).
  split; [exact H|].
  exact (proj2 (proj2 (codes_prefix_free _ H))).
Defined.

Lemma heavier_code_not_longer_witness :
  freqMap_of (text_of "aaabbc") !! "a"%char = Some 3
  ∧ freqMap_of (text_of "aaabbc") !! "c"%char = Some 1
  ∧ huffmanCodes_of (text_of "aaabbc") !! "a"%char = Some [bit0]
  ∧ huffmanCodes_of (text_of "aaabbc") !! "c"%char = Some [bit1; bit0]
  ∧ (length [bit0] ≤ length [bit1; bit0])%nat.
Proof.
  repeat (split; [run|]).
  apply (heavier_code_not_longer (text_of "aaabbc") "a"%char "c"%char 3 1);
    [run|run|run|run|lia].
Defined.

Lemma single_symbol_run_fails_witness :
  decodedText_of (text_of "aaaa") = None
  ∧ main (text_of "aaaa") = NullDereference.
Proof.
  apply (single_symbol_run_fails (text_of "aaaa") "a"%char); [by vm_compute|].
  only_char.
Defined.

Lemma single_leaf_decode_fails_witness :
  isLeaf (leaf_node "a" 4) = true
  ∧ decode (leaf_node "a" 4) (text_of "0000") = None.
Proof.
  split; [run|].
  apply (single_leaf_decode_fails (leaf_node "a" 4) bit0 (text_of "000")).
  run.
Defined.

Lemma truncated_payload_decodes_witness :
  decode (internal_node (leaf_node "a" 1) (leaf_node "b" 1))
         (removelast (encodedText_of (text_of "ab")))
  = Some (removelast (text_of "ab")).
Proof.
  apply (truncated_payload_decodes (text_of "ab") _ "a"%char "b"%char);
    [by repeat constructor|by repeat constructor|done|run].
Defined.

Lemma same_frequencies_same_encoded_length_witness :
  let text1 := text_of "daebdc" in
  let text2 := text_of "ebdcad" in
  count_frequencies text1 = count_frequencies text2
  ∧ length (encodedText_of (Q := selection_queue)
              (I := newest_first_order text1) text1)
    = length (encodedText_of (Q := selection_queue)
                (I := newest_first_order text2) text2).
Proof.
  intros text1 text2.
  assert (count_frequencies text1 = count_frequencies text2) as H by run.
  split; [exact H|].
  exact (proj1 (same_frequencies_same_encoded_length
                  selection_queue selection_queue
                  (newest_first_order text1) (newest_first_order text2)
                  text1 text2 H)).
Defined.

Lemma decode_cursor_never_null_witness :
  ∃ currentNode decodedText,
    decode_from (internal_node (leaf_node "a" 1) (leaf_node "b" 1))
      (internal_node (leaf_node "a" 1) (leaf_node "b" 1), []) [bit1]
    = Some (currentNode, decodedText).
Proof.
  apply (decode_cursor_never_null (text_of "ab") _ "a"%char "b"%char
           (text_of "ba") [bit1]);
    [by repeat constructor|by repeat constructor|done|run
    |by repeat constructor|by exists [bit0]].
Defined.

(** C4, the statement of the specification: the encoded text of "a" is the
    single bit "0"; it is not followed by seven zero bits. *)
Lemma encoded_text_not_padded :
  encodedText_of (text_of "a")
  ≠ spec_padded_payload (huffmanCodes_of (text_of "a")) (text_of "a").
Proof. by vm_compute. Qed.

(** C5, the statement of the specification: the encoded text of "ab"
    without its last character decodes to "a", and no failure is raised. *)
Lemma truncation_not_rejected :
  ¬ spec_truncation_rejected (text_of "ab").
Proof.
  intros H.
  specialize (H (internal_node (leaf_node "a" 1) (leaf_node "b" 1))).
  assert (root_of (text_of "ab")
          = Some (internal_node (leaf_node "a" 1) (leaf_node "b" 1))) as Hr
    by run.
  specialize (H Hr). vm_compute in H. discriminate.
Qed.

(** C9, the statement of the specification: the texts "daebdc" and "ebdcad"
    have the same frequency mapping; run with the same queue and the same
    map, which is iterated newest key first, the first gives the character
    "a" a code of two bits and the second a code of three bits. *)
Lemma same_frequencies_different_code_lengths :
  let text1 := text_of "daebdc" in
  let text2 := text_of "ebdcad" in
  let codes1 := huffmanCodes_of (Q := selection_queue)
                  (I := newest_first_order text1) text1 in
  let codes2 := huffmanCodes_of (Q := selection_queue)
                  (I := newest_first_order text2) text2 in
  count_frequencies text1 = count_frequencies text2
  ∧ length (code_of codes1 "a") = 2%nat
  ∧ length (code_of codes2 "a") = 3%nat
  ∧ ¬ spec_same_code_lengths selection_queue selection_queue
        (newest_first_order text1) (newest_first_order text2) text1 text2.
Proof.
  intros text1 text2 codes1 codes2.
  assert (count_frequencies text1 = count_frequencies text2) as H by run.
  repeat (split; [run|]).
  intros Hspec. specialize (Hspec H "a"%char).
  vm_compute in Hspec. discriminate.
Qed.

(** The further properties at particular texts. *)

Lemma root_freq_is_text_length_witness :
  freq (internal_node (leaf_node "a" 3)
          (internal_node (leaf_node "c" 1) (leaf_node "b" 2)))
  = Z.of_nat (length (text_of "aaabbc")).
Proof.
  apply (root_freq_is_text_length (text_of "aaabbc")). run.
Defined.

Lemma tree_leaves_are_entries_witness :
  let root := internal_node (leaf_node "a" 3)
                (internal_node (leaf_node "c" 1) (leaf_node "b" 2)) in
  NoDup (leaves root).*1
  ∧ ∀ c f, (c, f) ∈ leaves root ↔ freqMap_of (text_of "aaabbc") !! c = Some f.
Proof.
  apply (tree_leaves_are_entries (text_of "aaabbc")). run.
Defined.

Lemma node_freq_bounded_witness :
  1 ≤ freq (internal_node (leaf_node "c" 1) (leaf_node "b" 2))
    ≤ Z.of_nat (length (text_of "aaabbc")).
Proof.
  apply (node_freq_bounded (text_of "aaabbc")
           (internal_node (leaf_node "a" 3)
              (internal_node (leaf_node "c" 1) (leaf_node "b" 2))));
    [run|].
  eapply node_of_right; [reflexivity|apply node_of_self].
Defined.

Lemma tree_node_count_witness :
  let root := internal_node (leaf_node "a" 3)
                (internal_node (leaf_node "c" 1) (leaf_node "b" 2)) in
  length (leaves root) = size (freqMap_of (text_of "aaabbc"))
  ∧ S (length (internals root)) = size (freqMap_of (text_of "aaabbc")).
Proof.
  apply (tree_node_count (text_of "aaabbc")). run.
Defined.

Lemma decode_total_witness :
  ∃ decodedText,
    decode (internal_node (leaf_node "a" 1) (leaf_node "b" 1))
      (text_of "01x10") = Some decodedText
    ∧ Forall (λ c, c ∈ text_of "ab") decodedText
    ∧ (length decodedText ≤ length (text_of "01x10"))%nat.
Proof.
  apply (decode_total (text_of "ab") _ "a"%char "b"%char);
    [by repeat constructor|by repeat constructor|done|run].
Defined.

Lemma codes_uniquely_decodable_witness :
  let root := internal_node (leaf_node "a" 1) (leaf_node "b" 1) in
  let codes := huffmanCodes_of (text_of "ab") in
  decode root (encode codes (text_of "abba")) = Some (text_of "abba")
  ∧ (encode codes (text_of "abba") = encode codes (text_of "ba")
     → text_of "abba" = text_of "ba").
Proof.
  apply (codes_uniquely_decodable (text_of "ab") _ "a"%char "b"%char);
    [by repeat constructor|by repeat constructor|done|run
    |by repeat constructor|by repeat constructor].
Defined.

Lemma code_length_bound_witness :
  (length [bit1; bit0]
   ≤ Nat.max 1 (size (freqMap_of (text_of "aaabbc")) - 1))%nat
  ∧ (length [bit1; bit0] ≤ 255)%nat.
Proof.
  apply (code_length_bound (text_of "aaabbc") "c"%char). run.
Defined.

Lemma generateCodes_frame_witness :
  let n := internal_node (leaf_node "a" 1) (leaf_node "b" 1) in
  ("a"%char ∉ (leaves n).*1 →
   generateCodes (Some n) [bit1] ∅ !! "a"%char
   = (∅ : gmap ascii str) !! "a"%char)
  ∧ ("a"%char ∈ (leaves n).*1 →
     ∃ cd, generateCodes (Some n) [bit1] ∅ !! "a"%char = Some cd
           ∧ [bit1] `prefix_of` cd ∧ cd ≠ []).
Proof.
  apply (generateCodes_frame
           (internal_node (leaf_node "a" 1) (leaf_node "b" 1)) [bit1] ∅).
  unfold internal_node. by repeat constructor.
Defined.

Lemma left_child_not_heavier_witness :
  freq (leaf_node "a" 3)
  ≤ freq (internal_node (leaf_node "c" 1) (leaf_node "b" 2))
  ∧ data (internal_node (leaf_node "a" 3)
            (internal_node (leaf_node "c" 1) (leaf_node "b" 2)))
    = Ascii.zero.
Proof.
  apply (left_child_not_heavier (count_frequencies (text_of "aaabbc"))
           (internal_node (leaf_node "a" 3)
              (internal_node (leaf_node "c" 1) (leaf_node "b" 2))));
    [run|apply node_of_self|reflexivity|reflexivity].
Defined.

Lemma huffman_encoding_shortest_witness :
  (length (encodedText_of (text_of "aaabbc"))
   ≤ length (encode
               (generateCodes
                  (Some (internal_node (leaf_node "c" 1)
                           (internal_node (leaf_node "a" 3)
                              (leaf_node "b" 2)))) [] ∅)
               (text_of "aaabbc")))%nat.
Proof.
  apply (huffman_encoding_shortest (text_of "aaabbc")
           (internal_node (leaf_node "a" 3)
              (internal_node (leaf_node "c" 1) (leaf_node "b" 2)))).
  - run.
  - unfold internal_node. by repeat constructor.
  - apply perm_swap.
Defined.
